(** * A terminal chat client: message content, history, persistence

    Shallow embedding of the three variants of the chat client
    ([chat.py], [chat_with_media.py], [chat_with_media_v2.py]) and the
    properties of their content composer, history store, completion
    request and asynchronous response controller. *)

From Equations Require Import Equations.
From Stdlib Require Import List Arith ZArith NArith Bool Ascii String DecimalString Lia.
Import ListNotations.

Open Scope string_scope.
Open Scope nat_scope.
Open Scope list_scope.

(** ** Texts

    A Python [str] is modelled as a list of characters, one [ascii] per
    character (code points 0 to 255).  String literals are read through
    the coercion below. *)

Abbreviation str := (list ascii) (only parsing).

Definition lit (s : string) : list ascii := list_ascii_of_string s.
Coercion lit : string >-> list.

Definition chr (n : N) : ascii := ascii_of_N n.
Definition ord (c : ascii) : N := N_of_ascii c.

Definition LF : ascii := chr 10.

Fixpoint str_eqb (a b : str) : bool :=
  match a, b with
  | [], [] => true
  | x :: a', y :: b' => Ascii.eqb x y && str_eqb a' b'
  | _, _ => false
  end.

(** [s.startswith(p)] *)
Fixpoint startswith (p s : str) : bool :=
  match p, s with
  | [], _ => true
  | a :: p', b :: s' => Ascii.eqb a b && startswith p' s'
  | _ :: _, [] => false
  end.

Lemma startswith_prefix p s : startswith p s = true <-> exists r, s = p ++ r.
Proof.
  revert s. induction p as [|a p IH]; intros s; simpl.
  - split; eauto.
  - destruct s as [|b s]; [split; [discriminate | intros [r H]; discriminate]|].
    rewrite andb_true_iff, Ascii.eqb_eq, IH. split.
    + intros [-> [r ->]]. eauto.
    + intros [r H]. inversion H. eauto.
Qed.

(** [p in s] for strings: [p] occurs as a contiguous run of [s]. *)
Fixpoint contains (p s : str) : bool :=
  startswith p s ||
  match s with
  | [] => false
  | _ :: s' => contains p s'
  end.

(** [str.isspace] on one character: the code points below 256 that
    Python classifies as whitespace. *)
Definition isspace (c : ascii) : bool :=
  let n := ord c in
  (((9 <=? n) && (n <=? 13)) || ((28 <=? n) && (n <=? 32))
   || (n =? 133) || (n =? 160))%N.

Fixpoint lstrip (s : str) : str :=
  match s with
  | c :: s' => if isspace c then lstrip s' else s
  | [] => []
  end.

Definition rstrip (s : str) : str := rev (lstrip (rev s)).

(** [s.strip()] *)
Definition strip (s : str) : str := rstrip (lstrip s).

(** Python truthiness of a string and of a list. *)
Definition truthy {A} (l : list A) : bool :=
  match l with [] => false | _ :: _ => true end.

(** [str.lower] on one character: the upper-case letters among the
    code points below 256 are [A] to [Z] and U+00C0 to U+00DE without
    the multiplication sign. *)
Definition lower_char (c : ascii) : ascii :=
  let n := ord c in
  if (((65 <=? n) && (n <=? 90))
      || ((192 <=? n) && (n <=? 222) && negb (n =? 215)))%N
  then chr (n + 32) else c.

(** [s.lower()] *)
Definition lower (s : str) : str := map lower_char s.

(** [sep.join(chunks)] *)
Definition sep_join (sep : str) (chunks : list str) : str :=
  match chunks with
  | [] => []
  | x :: rest => x ++ flat_map (fun y => sep ++ y) rest
  end.

(** ** The marker pattern

    Both media variants use the regular expression [\{\{(.*?)\}\}]:
    two opening braces, a lazy run of characters other than a line
    feed, two closing braces. *)

Module Re.

(** [close s] matches [(.*?)\}\}] at the head of [s]: the capture and
    what follows the closing braces.  The lazy star tries the closing
    braces first and otherwise consumes one character that is not a
    line feed. *)
Fixpoint close (s : str) : option (str * str) :=
  match s with
  | [] => None
  | c :: r =>
      if startswith "}}" s then Some ([], skipn 2 s)
      else if Ascii.eqb c LF then None
      else match close r with
           | Some (m, r') => Some (c :: m, r')
           | None => None
           end
  end.

(** [marker s] matches the whole pattern at the head of [s]. *)
Definition marker (s : str) : option (str * str) :=
  if startswith "{{" s then close (skipn 2 s) else None.

Lemma close_shorter s m r : close s = Some (m, r) -> List.length r < List.length s.
Proof.
  revert m r. induction s as [|c s IH]; intros m r; [discriminate|].
  cbn [close]. destruct (startswith "}}" (c :: s)) eqn:E.
  - intros H; inversion H; subst. apply startswith_prefix in E.
    destruct E as [t E]. simpl in E. inversion E; subst. simpl. lia.
  - destruct (Ascii.eqb c LF); [discriminate|].
    destruct (close s) as [[m' r']|] eqn:C; [|discriminate].
    intros H; inversion H; subst. specialize (IH _ _ eq_refl). simpl. lia.
Qed.

Lemma marker_shorter s m r : marker s = Some (m, r) -> List.length r < List.length s.
Proof.
  unfold marker. destruct (startswith "{{" s) eqn:E; [|discriminate].
  intros H. apply close_shorter in H. apply startswith_prefix in E.
  destruct E as [t ->]. simpl in H. simpl. lia.
Qed.

(** Remembers the equation of a scrutinee, for the termination proofs. *)
Definition inspect {A} (a : A) : {b : A | a = b} := exist _ a eq_refl.

(** [re.findall(r'\{\{(.*?)\}\}', text)]: the captures of the
    non-overlapping matches, scanning from the left. *)
Equations? findall (s : str) : list str by wf (List.length s) lt :=
  findall [] := [];
  findall (c :: r) with inspect (marker (c :: r)) => {
    | exist _ (Some (m, r')) _ := m :: findall r';
    | exist _ None _ := findall r }.
Proof. apply marker_shorter in e. exact e. Qed.

(** [re.sub(r'\{\{.*?\}\}', '', text)]: the text with every match
    removed. *)
Equations? sub_empty (s : str) : str by wf (List.length s) lt :=
  sub_empty [] := [];
  sub_empty (c :: r) with inspect (marker (c :: r)) => {
    | exist _ (Some (m, r')) _ := sub_empty r';
    | exist _ None _ := c :: sub_empty r }.
Proof. apply marker_shorter in e. exact e. Qed.

End Re.

(** ** Message content

    A message content is a plain string or a list of parts; a part is
    the dictionary [{"type": "text", "text": t}] or
    [{"type": "image_url", "image_url": {"url": u}}]. *)

Inductive part : Type :=
| TextPart (text : str)
| ImagePart (url : str).

Inductive content : Type :=
| PlainText (text : str)
| Structured (parts : list part).

Inductive role : Type := user | assistant.

Record message : Type := Message { msg_role : role; msg_content : content }.

Definition is_image (p : part) : bool :=
  match p with ImagePart _ => true | TextPart _ => false end.

Definition is_text (p : part) : bool := negb (is_image p).

(** The text parts of a content; a plain string has none. *)
Definition text_parts (c : content) : list str :=
  match c with
  | PlainText _ => []
  | Structured ps =>
      flat_map (fun p => match p with TextPart t => [t] | ImagePart _ => [] end) ps
  end.

Definition has_image_part (c : content) : bool :=
  match c with
  | PlainText _ => false
  | Structured ps => existsb is_image ps
  end.

(** ** Local files and base64 *)

Definition b64_alphabet : str :=
  "ABCDEFGHIJKLMNOPQRSTUVWXYZabcdefghijklmnopqrstuvwxyz0123456789+/".

Definition b64_digit (n : N) : ascii := nth (N.to_nat n) b64_alphabet "="%char.

(** [base64.b64encode(data).decode('utf-8')] *)
Fixpoint b64encode (data : list ascii) : str :=
  match data with
  | [] => []
  | [a] =>
      let n := (ord a * 65536)%N in
      [b64_digit (n / 262144); b64_digit ((n / 4096) mod 64); "="%char; "="%char]
  | [a; b] =>
      let n := (ord a * 65536 + ord b * 256)%N in
      [b64_digit (n / 262144); b64_digit ((n / 4096) mod 64);
       b64_digit ((n / 64) mod 64); "="%char]
  | a :: b :: c :: rest =>
      let n := (ord a * 65536 + ord b * 256 + ord c)%N in
      [b64_digit (n / 262144); b64_digit ((n / 4096) mod 64);
       b64_digit ((n / 64) mod 64); b64_digit (n mod 64)] ++ b64encode rest
  end.

(** What the program sees of the file system: whether a path exists and
    what reading it in binary mode gives, the bytes or the text of the
    exception raised. *)
Record FileSystem : Type := {
  os_path_exists : str -> bool;
  open_rb_read : str -> str + list ascii
}.

(** A file system where no path exists. *)
Definition no_files : FileSystem :=
  {| os_path_exists := fun _ => false;
     open_rb_read := fun _ => inl (lit "[Errno 2] No such file or directory") |}.

(** ** JSON documents

    The history file is written with [json.dump(..., indent=2)] and read
    back with [json.load].  This section models the documents, the
    encoder's output format and the decoder's grammar. *)

Module Json.

Unset Elimination Schemes.
Inductive json : Type :=
| JNull
| JBool (b : bool)
| JInt (z : Z)
| JStr (s : str)
| JArr (items : list json)
| JObj (pairs : list (str * json)).
Set Elimination Schemes.

Definition DQ : ascii := chr 34.   (* the double quote *)
Definition BS : ascii := chr 92.   (* the backslash *)
Definition TAB : ascii := chr 9.
Definition CR : ascii := chr 13.
Definition BSP : ascii := chr 8.
Definition FF : ascii := chr 12.

(** *** Encoder *)

Definition hex_digit (n : N) : ascii := nth (N.to_nat n) (lit "0123456789abcdef") "0"%char.

(** One character of a string literal under [ensure_ascii]: printable
    ASCII other than the quote and the backslash stands for itself, the
    rest is escaped. *)
Definition escape_char (c : ascii) : str :=
  if Ascii.eqb c DQ then [BS; DQ]
  else if Ascii.eqb c BS then [BS; BS]
  else if Ascii.eqb c LF then [BS; "n"%char]
  else if Ascii.eqb c CR then [BS; "r"%char]
  else if Ascii.eqb c TAB then [BS; "t"%char]
  else if Ascii.eqb c BSP then [BS; "b"%char]
  else if Ascii.eqb c FF then [BS; "f"%char]
  else if ((32 <=? ord c) && (ord c <=? 126))%N then [c]
  else [BS; "u"%char; "0"%char; "0"%char; hex_digit (ord c / 16); hex_digit (ord c mod 16)].

Definition encode_string (s : str) : str := DQ :: flat_map escape_char s ++ [DQ].

Definition newline_indent (level : nat) : str := LF :: repeat " "%char (2 * level).

Definition encode_int (z : Z) : str :=
  lit (DecimalString.NilZero.string_of_int (Z.to_int z)).

(** The chunks of the items of a container, with the separator
    between them. *)
Definition join (sep : str) (chunks : list str) : str :=
  match chunks with
  | [] => []
  | x :: rest => x ++ flat_map (fun y => sep ++ y) rest
  end.

(** The encoder at nesting depth [level], with [indent=2], the item
    separator [","] and the key separator [": "]. *)
Fixpoint encode (level : nat) (v : json) : str :=
  match v with
  | JNull => "null"
  | JBool true => "true"
  | JBool false => "false"
  | JInt z => encode_int z
  | JStr s => encode_string s
  | JArr [] => "[]"
  | JArr items =>
      "[" ++ newline_indent (S level)
      ++ join ("," ++ newline_indent (S level)) (map (encode (S level)) items)
      ++ newline_indent level ++ "]"
  | JObj [] => "{}"
  | JObj pairs =>
      "{" ++ newline_indent (S level)
      ++ join ("," ++ newline_indent (S level))
           (map (fun kv => encode_string (fst kv) ++ ": " ++ encode (S level) (snd kv)) pairs)
      ++ newline_indent level ++ "}"
  end.

(** [json.dumps(v, indent=2)] *)
Definition dumps (v : json) : str := encode 0 v.

(** *** Decoder *)

Inductive error : Type :=
| JSONDecodeError
| Unrepresentable   (* valid JSON with no counterpart in this model: a
                       number with a fraction or an exponent, NaN, an
                       infinity, or a character above U+00FF *).

Inductive result (A : Type) : Type :=
| Ok (a : A)
| Err (e : error).
Arguments Ok {A} a.
Arguments Err {A} e.

Definition bind {A B} (r : result A) (k : A -> result B) : result B :=
  match r with
  | Ok a => k a
  | Err e => Err e
  end.

Notation "x <- r ;; k" := (bind r (fun x => k))
  (at level 61, r at next level, right associativity).
Notation "' p <- r ;; k" := (bind r (fun x => let 'p := x in k))
  (at level 61, p pattern, r at next level, right associativity).

Definition is_ws (c : ascii) : bool :=
  Ascii.eqb c " "%char || Ascii.eqb c TAB || Ascii.eqb c LF || Ascii.eqb c CR.

Fixpoint skip_ws (s : str) : str :=
  match s with
  | c :: r => if is_ws c then skip_ws r else s
  | [] => []
  end.

Definition hex_value (c : ascii) : option N :=
  let n := ord c in
  if ((48 <=? n) && (n <=? 57))%N then Some (n - 48)%N
  else if ((97 <=? n) && (n <=? 102))%N then Some (n - 87)%N
  else if ((65 <=? n) && (n <=? 70))%N then Some (n - 55)%N
  else None.

Definition hex4 (a b c d : ascii) : option N :=
  match hex_value a, hex_value b, hex_value c, hex_value d with
  | Some x, Some y, Some z, Some w => Some (((x * 16 + y) * 16 + z) * 16 + w)%N
  | _, _, _, _ => None
  end.

(** The one-letter escapes. *)
Definition unescape (e : ascii) : option ascii :=
  if Ascii.eqb e DQ then Some DQ
  else if Ascii.eqb e BS then Some BS
  else if Ascii.eqb e "/"%char then Some "/"%char
  else if Ascii.eqb e "b"%char then Some BSP
  else if Ascii.eqb e "f"%char then Some FF
  else if Ascii.eqb e "n"%char then Some LF
  else if Ascii.eqb e "r"%char then Some CR
  else if Ascii.eqb e "t"%char then Some TAB
  else None.

(** [scanstring], called after the opening quote, in strict mode: the
    decoded string and what follows the closing quote. *)
Fixpoint scanstring (s : str) : result (str * str) :=
  match s with
  | [] => Err JSONDecodeError
  | c :: r =>
      if Ascii.eqb c DQ then Ok ([], r)
      else if Ascii.eqb c BS then
        match r with
        | [] => Err JSONDecodeError
        | e :: r2 =>
            if Ascii.eqb e "u"%char then
              match r2 with
              | h1 :: h2 :: h3 :: h4 :: r3 =>
                  match hex4 h1 h2 h3 h4 with
                  | Some n =>
                      if (n <? 256)%N then
                        '(t, r') <- scanstring r3 ;; Ok (chr n :: t, r')
                      else Err Unrepresentable
                  | None => Err JSONDecodeError
                  end
              | _ => Err JSONDecodeError
              end
            else
              match unescape e with
              | Some ch => '(t, r') <- scanstring r2 ;; Ok (ch :: t, r')
              | None => Err JSONDecodeError
              end
        end
      else if (ord c <? 32)%N then Err JSONDecodeError
      else '(t, r') <- scanstring r ;; Ok (c :: t, r')
  end.

Definition is_digit (c : ascii) : bool := ((48 <=? ord c) && (ord c <=? 57))%N.

(** The run of decimal digits at the head of [s], as a number. *)
Fixpoint digits (acc : N) (s : str) : N * str :=
  match s with
  | c :: r => if is_digit c then digits (acc * 10 + (ord c - 48))%N r else (acc, s)
  | [] => (acc, [])
  end.

(** A number literal: an optional minus sign, then a zero or a run of
    digits that does not start with a zero, then an optional fraction
    and exponent.  Only literals without fraction and exponent have a
    value in this model. *)
Definition match_number (s : str) : option (result (Z * str)) :=
  let '(neg, s1) := match s with
                     | c :: r => if Ascii.eqb c "-"%char then (true, r) else (false, s)
                     | [] => (false, s)
                     end in
  match s1 with
  | d :: r =>
      if is_digit d then
        let '(n, s2) := if Ascii.eqb d "0"%char then (0%N, r) else digits 0 s1 in
        let frac := match s2 with
                    | p :: q :: _ => Ascii.eqb p "."%char && is_digit q
                    | _ => false
                    end in
        let expo := match s2 with
                    | e :: x :: t =>
                        (Ascii.eqb e "e"%char || Ascii.eqb e "E"%char)
                        && (is_digit x
                            || ((Ascii.eqb x "+"%char || Ascii.eqb x "-"%char)
                                && match t with y :: _ => is_digit y | [] => false end))
                    | _ => false
                    end in
        if frac || expo then Some (Err Unrepresentable)
        else Some (Ok (if neg then (- Z.of_N n)%Z else Z.of_N n, s2))
      else None
  | [] => None
  end.

(** Python's [dict]: setting a key keeps its first position and takes
    the last value. *)
Fixpoint dict_set (d : list (str * json)) (k : str) (v : json) : list (str * json) :=
  match d with
  | [] => [(k, v)]
  | (k', v') :: d' => if str_eqb k' k then (k', v) :: d' else (k', v') :: dict_set d' k v
  end.

Definition dict_of_pairs (pairs : list (str * json)) : list (str * json) :=
  fold_left (fun d kv => dict_set d (fst kv) (snd kv)) pairs [].

Fixpoint dict_get (d : list (str * json)) (k : str) : option json :=
  match d with
  | [] => None
  | (k', v) :: d' => if str_eqb k' k then Some v else dict_get d' k
  end.

(** The scanner.  [fuel] bounds the nesting and the number of items;
    [loads] starts it with the length of the text. *)
Fixpoint scan_once (fuel : nat) (s : str) : result (json * str) :=
  match fuel with
  | O => Err JSONDecodeError
  | S fuel' =>
      match s with
      | [] => Err JSONDecodeError
      | c :: r =>
          if Ascii.eqb c DQ then
            '(t, r') <- scanstring r ;; Ok (JStr t, r')
          else if Ascii.eqb c "{"%char then
            let r1 := skip_ws r in
            match r1 with
            | d :: r2 =>
                if Ascii.eqb d "}"%char then Ok (JObj [], r2)
                else if Ascii.eqb d DQ then
                  '(pairs, r') <- object_items fuel' [] r2 ;;
                  Ok (JObj (dict_of_pairs pairs), r')
                else Err JSONDecodeError
            | [] => Err JSONDecodeError
            end
          else if Ascii.eqb c "["%char then
            let r1 := skip_ws r in
            match r1 with
            | d :: r2 =>
                if Ascii.eqb d "]"%char then Ok (JArr [], r2)
                else '(items, r') <- array_items fuel' [] r1 ;; Ok (JArr items, r')
            | [] => Err JSONDecodeError
            end
          else if startswith "null" s then Ok (JNull, skipn 4 s)
          else if startswith "true" s then Ok (JBool true, skipn 4 s)
          else if startswith "false" s then Ok (JBool false, skipn 5 s)
          else
            match match_number s with
            | Some (Ok (z, r')) => Ok (JInt z, r')
            | Some (Err e) => Err e
            | None =>
                if startswith "NaN" s || startswith "Infinity" s
                   || startswith "-Infinity" s
                then Err Unrepresentable
                else Err JSONDecodeError
            end
      end
  end

(** The items of an array, from the first character of an item. *)
with array_items (fuel : nat) (acc : list json) (s : str) : result (list json * str) :=
  match fuel with
  | O => Err JSONDecodeError
  | S fuel' =>
      '(v, r) <- scan_once fuel' s ;;
      match skip_ws r with
      | d :: r2 =>
          if Ascii.eqb d "]"%char then Ok (acc ++ [v], r2)
          else if Ascii.eqb d ","%char then array_items fuel' (acc ++ [v]) (skip_ws r2)
          else Err JSONDecodeError
      | [] => Err JSONDecodeError
      end
  end

(** The members of an object, from the character after the opening
    quote of a key. *)
with object_items (fuel : nat) (acc : list (str * json)) (s : str)
  : result (list (str * json) * str) :=
  match fuel with
  | O => Err JSONDecodeError
  | S fuel' =>
      '(k, r) <- scanstring s ;;
      match skip_ws r with
      | c :: r1 =>
          if Ascii.eqb c ":"%char then
            '(v, r2) <- scan_once fuel' (skip_ws r1) ;;
            match skip_ws r2 with
            | d :: r3 =>
                if Ascii.eqb d "}"%char then Ok (acc ++ [(k, v)], r3)
                else if Ascii.eqb d ","%char then
                  match skip_ws r3 with
                  | q :: r4 =>
                      if Ascii.eqb q DQ then object_items fuel' (acc ++ [(k, v)]) r4
                      else Err JSONDecodeError
                  | [] => Err JSONDecodeError
                  end
                else Err JSONDecodeError
            | [] => Err JSONDecodeError
            end
          else Err JSONDecodeError
      | [] => Err JSONDecodeError
      end
  end.

(** [json.loads(s)]: one value between optional whitespace, and nothing
    after it. *)
Definition loads (s : str) : result json :=
  '(v, r) <- scan_once (S (List.length s)) (skip_ws s) ;;
  match skip_ws r with
  | [] => Ok v
  | _ :: _ => Err JSONDecodeError
  end.

(** *** Notions for the round trip *)

(** The number of nodes of a document, counting each item once more
    for the round of the loop that reads it. *)
Fixpoint json_size (v : json) : nat :=
  match v with
  | JArr items => S (list_sum (map (fun y => S (json_size y)) items))
  | JObj pairs => S (list_sum (map (fun kv => S (json_size (snd kv))) pairs))
  | _ => 1
  end.

(** Documents without numbers in which no object repeats a key. *)
Fixpoint plain (v : json) : Prop :=
  match v with
  | JInt _ => False
  | JArr items => fold_right (fun y acc => plain y /\ acc) True items
  | JObj pairs =>
      NoDup (map fst pairs) /\ fold_right (fun kv acc => plain (snd kv) /\ acc) True pairs
  | _ => True
  end.

(** The encoder's output begins with a character that is not
    whitespace and closes no container. *)
Definition opener (c : ascii) : Prop :=
  is_ws c = false /\ Ascii.eqb c "]"%char = false /\ Ascii.eqb c "}"%char = false.

(** What the round trip says of one document. *)
Definition reads_back (v : json) : Prop :=
  plain v ->
  forall fuel level rest,
    json_size v <= fuel ->
    scan_once fuel (encode level v ++ rest) = Ok (v, rest).

End Json.

(** ** The history file

    The three variants share [load_history] and [save_history].  The
    file is modelled by its text, [None] when it does not exist. *)

Module History.

Import Json.

Definition role_to_json (r : role) : json :=
  match r with user => JStr "user" | assistant => JStr "assistant" end.

Definition part_to_json (p : part) : json :=
  match p with
  | TextPart t => JObj [(lit "type", JStr "text"); (lit "text", JStr t)]
  | ImagePart u =>
      JObj [(lit "type", JStr "image_url"); (lit "image_url", JObj [(lit "url", JStr u)])]
  end.

Definition content_to_json (c : content) : json :=
  match c with
  | PlainText s => JStr s
  | Structured ps => JArr (map part_to_json ps)
  end.

Definition message_to_json (m : message) : json :=
  JObj [(lit "role", role_to_json (msg_role m)); (lit "content", content_to_json (msg_content m))].

(** The Python value of [self.messages]. *)
Definition history_to_json (h : list message) : json := JArr (map message_to_json h).

(** Reading a decoded document back as a history.  Keys are looked up
    by name; a document of another shape has no counterpart among the
    typed histories. *)
Fixpoint sequence {A} (l : list (option A)) : option (list A) :=
  match l with
  | [] => Some []
  | Some a :: l' => option_map (cons a) (sequence l')
  | None :: _ => None
  end.

Definition json_to_role (v : json) : option role :=
  match v with
  | JStr s => if str_eqb s "user" then Some user
              else if str_eqb s "assistant" then Some assistant else None
  | _ => None
  end.

Definition json_to_part (v : json) : option part :=
  match v with
  | JObj d =>
      match dict_get d "type" with
      | Some (JStr ty) =>
          if str_eqb ty "text" then
            match dict_get d "text", List.length d with
            | Some (JStr t), 2 => Some (TextPart t)
            | _, _ => None
            end
          else if str_eqb ty "image_url" then
            match dict_get d "image_url", List.length d with
            | Some (JObj d'), 2 =>
                match dict_get d' "url", List.length d' with
                | Some (JStr u), 1 => Some (ImagePart u)
                | _, _ => None
                end
            | _, _ => None
            end
          else None
      | _ => None
      end
  | _ => None
  end.

Definition json_to_content (v : json) : option content :=
  match v with
  | JStr s => Some (PlainText s)
  | JArr items => option_map Structured (sequence (map json_to_part items))
  | _ => None
  end.

Definition json_to_message (v : json) : option message :=
  match v with
  | JObj d =>
      match dict_get d "role", dict_get d "content", List.length d with
      | Some r, Some c, 2 =>
          match json_to_role r, json_to_content c with
          | Some r', Some c' => Some (Message r' c')
          | _, _ => None
          end
      | _, _, _ => None
      end
  | _ => None
  end.

Definition json_to_history (v : json) : option (list message) :=
  match v with
  | JArr items => sequence (map json_to_message items)
  | _ => None
  end.

(** [save_history]: the new text of the file. *)
Definition save_history (messages : list message) : option str :=
  Some (dumps (history_to_json messages)).

(** [load_history]: the loaded messages and the line printed, if any.
    The answer is [None] when the file holds valid JSON that is not a
    typed history (the program would keep that value as it is). *)
Definition load_history (history_file : option str) : option (list message * list str) :=
  match history_file with
  | Some doc =>
      match loads doc with
      | Ok v =>
          match json_to_history v with
          | Some h => Some (h, [lit "Previous chat history loaded."])
          | None => None
          end
      | Err JSONDecodeError => Some ([], [lit "Error loading chat history. Starting fresh."])
      | Err Unrepresentable => None
      end
  | None => Some ([], [])
  end.

End History.

(** ** The completion service *)

Record Request : Type := {
  model : str;
  req_messages : list message;
  temperature : str;          (* the literal, as written in the call *)
  max_tokens : Z
}.

(** The call returns the reply text or raises; [Raised] carries the
    text of the exception. *)
Inductive Response : Type :=
| Reply (text : str)
| Raised (detail : str).

Definition request_has_image (r : Request) : bool :=
  existsb (fun m => has_image_part (msg_content m)) (req_messages r).

(** How the command loop of [start_chat] ends: by the [quit] command,
    or by the end of the input, when [input] raises. *)
Inductive ending : Type := Quit | EndOfInput.

(** ** [chat.py] *)

Module Chat.

Record ChatApp : Type := {
  client : Request -> Response;
  messages : list message;
  history_file : option str
}.

(** The request built by [get_ai_response], after the user's message
    is appended. *)
Definition request_of (self : ChatApp) (user_input : str) : Request :=
  {| model := "gpt-4o-mini";
     req_messages := messages self ++ [Message user (PlainText user_input)];
     temperature := "0.7"; max_tokens := 150 |}.

(** [get_ai_response]: the new state and the returned string. *)
Definition get_ai_response (self : ChatApp) (user_input : str) : ChatApp * str :=
  let request := request_of self user_input in
  let messages1 := req_messages request in
  match client self request with
  | Reply ai_response =>
      let messages2 := messages1 ++ [Message assistant (PlainText ai_response)] in
      ({| client := client self; messages := messages2;
          history_file := History.save_history messages2 |}, ai_response)
  | Raised e =>
      ({| client := client self; messages := messages1;
          history_file := history_file self |}, "Error: " ++ e)
  end.

(** The [new] command of [start_chat]. *)
Definition new_chat (self : ChatApp) : ChatApp :=
  {| client := client self; messages := []; history_file := History.save_history [] |}.

End Chat.

(** ** [chat_with_media.py] *)

Module ChatWithMedia.

Record ChatApp : Type := {
  client : Request -> Response;
  messages : list message;
  history_file : option str
}.

Definition extract_image_urls (text : str) : list str := Re.findall text.

Definition create_message_content (text : str) (image_urls : list str) : content :=
  if negb (truthy image_urls) then PlainText text
  else
    let clean_text := strip (Re.sub_empty text) in
    let content0 := if truthy clean_text then [TextPart clean_text] else [] in
    Structured (fold_left (fun content url => content ++ [ImagePart (strip url)])
                          image_urls content0).

(** The request built by [get_ai_response], after the user's message
    is appended. *)
Definition request_of (self : ChatApp) (user_input : str) : Request :=
  let image_urls := extract_image_urls user_input in
  let content := create_message_content user_input image_urls in
  {| model := "gpt-4o-mini";
     req_messages := messages self ++ [Message user content];
     temperature := "0.7";
     max_tokens := if truthy image_urls then 4096 else 512 |}.

Definition get_ai_response (self : ChatApp) (user_input : str) : ChatApp * str :=
  let request := request_of self user_input in
  let messages1 := req_messages request in
  match client self request with
  | Reply ai_response =>
      let messages2 := messages1 ++ [Message assistant (PlainText ai_response)] in
      ({| client := client self; messages := messages2;
          history_file := History.save_history messages2 |}, ai_response)
  | Raised e =>
      ({| client := client self; messages := messages1;
          history_file := history_file self |}, "Error: " ++ e)
  end.

Definition new_chat (self : ChatApp) : ChatApp :=
  {| client := client self; messages := []; history_file := History.save_history [] |}.

(** The line that the [history] command prints for one message. *)
Definition history_line (msg : message) : str :=
  let role := match msg_role msg with user => lit "You" | assistant => lit "AI" end in
  match msg_content msg with
  | Structured content =>
      let text_parts :=
        flat_map (fun item => match item with TextPart t => [t] | ImagePart _ => [] end)
                 content in
      let image_parts :=
        flat_map (fun item => match item with
                              | ImagePart u => ["[Image: " ++ u ++ "]"]
                              | TextPart _ => []
                              end) content in
      [LF] ++ role ++ ": " ++ List.concat text_parts ++ " " ++ sep_join " " image_parts
  | PlainText content => [LF] ++ role ++ ": " ++ content
  end.

(** The loop of [start_chat] over the lines typed: the final state,
    what was printed (one entry for each call of [print]) and how the
    loop ended. *)
Fixpoint chat_loop (self : ChatApp) (lines : list str) : ChatApp * list str * ending :=
  match lines with
  | [] => (self, [], EndOfInput)
  | line :: rest =>
      let user_input := strip line in
      if str_eqb (lower user_input) "quit" then (self, [lit "Goodbye!"], Quit)
      else if str_eqb (lower user_input) "new" then
        let '(self', out, e) := chat_loop (new_chat self) rest in
        (self', ([LF] ++ "Starting new chat...") :: out, e)
      else if str_eqb (lower user_input) "history" then
        let '(self', out, e) := chat_loop self rest in
        (self', (([LF] ++ "Chat History:") :: map history_line (messages self)) ++ out, e)
      else if negb (truthy user_input) then chat_loop self rest
      else
        let '(self1, answer) := get_ai_response self user_input in
        let '(self', out, e) := chat_loop self1 rest in
        (self', ([LF] ++ "AI: " ++ answer) :: out, e)
  end.

Definition start_chat (self : ChatApp) (lines : list str) : ChatApp * list str * ending :=
  let '(self', out, e) := chat_loop self lines in
  (self',
   [[LF] ++ "Welcome to Terminal Chat!";
    lit "Type 'quit' to exit, 'new' to start a new chat, or 'history' to view chat history.";
    lit "To include images, enclose the image URL in double braces: {{image_url}}"]
   ++ out, e).

End ChatWithMedia.

(** ** [chat_with_media_v2.py] *)

Module ChatWithMediaV2.

Record ChatApp : Type := {
  client : Request -> Response;
  messages : list message;
  history_file : option str;
  is_generating : bool;
  last_response : option str;
  stdout : list str               (* the lines printed so far *)
}.

Definition set_messages (self : ChatApp) (m : list message) : ChatApp :=
  {| client := client self; messages := m; history_file := history_file self;
     is_generating := is_generating self; last_response := last_response self;
     stdout := stdout self |}.

Definition set_history_file (self : ChatApp) (f : option str) : ChatApp :=
  {| client := client self; messages := messages self; history_file := f;
     is_generating := is_generating self; last_response := last_response self;
     stdout := stdout self |}.

Definition set_is_generating (self : ChatApp) (b : bool) : ChatApp :=
  {| client := client self; messages := messages self; history_file := history_file self;
     is_generating := b; last_response := last_response self;
     stdout := stdout self |}.

Definition set_last_response (self : ChatApp) (r : option str) : ChatApp :=
  {| client := client self; messages := messages self; history_file := history_file self;
     is_generating := is_generating self; last_response := r;
     stdout := stdout self |}.

Definition print (self : ChatApp) (lines : list str) : ChatApp :=
  {| client := client self; messages := messages self; history_file := history_file self;
     is_generating := is_generating self; last_response := last_response self;
     stdout := stdout self ++ lines |}.

Definition is_url (ref : str) : bool :=
  startswith "http://" ref || startswith "https://" ref.

(** [extract_image_references]: the loop over the captures, appending
    to one of two lists. *)
Definition extract_image_references (text : str) : list str * list str :=
  let references := Re.findall text in
  fold_left (fun (acc : list str * list str) ref =>
               let '(urls, file_paths) := acc in
               let ref := strip ref in
               if is_url ref then (urls ++ [ref], file_paths)
               else (urls, file_paths ++ [ref]))
            references ([], []).

(** [encode_image_to_base64]: the encoded text or [None], and the line
    printed on failure. *)
Definition encode_image_to_base64 (fs : FileSystem) (image_path : str)
  : option str * list str :=
  match open_rb_read fs image_path with
  | inr data => (Some (b64encode data), [])
  | inl e => (None, ["Error encoding image " ++ image_path ++ ": " ++ e])
  end.

(** One round of the loop over the local paths. *)
Definition add_local_image (fs : FileSystem) (acc : list part * list str) (path : str)
  : list part * list str :=
  let '(content, out) := acc in
  if negb (os_path_exists fs path) then
    (content, out ++ ["Warning: Image file not found: " ++ path])
  else
    match encode_image_to_base64 fs path with
    | (Some base64_image, printed) =>
        if truthy base64_image then
          (content ++ [ImagePart ("data:image/jpeg;base64," ++ base64_image)], out ++ printed)
        else (content, out ++ printed)
    | (None, printed) => (content, out ++ printed)
    end.

(** [create_message_content]: the content and the lines printed. *)
Definition create_message_content (fs : FileSystem) (text : str)
    (image_urls image_paths : list str) : content * list str :=
  if negb (truthy image_urls) && negb (truthy image_paths) then (PlainText text, [])
  else
    let clean_text := strip (Re.sub_empty text) in
    let content0 := if truthy clean_text then [TextPart clean_text] else [] in
    let content1 := fold_left (fun content url => content ++ [ImagePart url])
                              image_urls content0 in
    let '(content2, out) := fold_left (add_local_image fs) image_paths (content1, []) in
    (Structured content2, out).

(** [get_ai_response] up to the call of the service: the state with
    the user's message appended, and the request. *)
Definition begin_response (fs : FileSystem) (self : ChatApp) (user_input : str)
  : ChatApp * Request :=
  let '(image_urls, image_paths) := extract_image_references user_input in
  let '(content, out) := create_message_content fs user_input image_urls image_paths in
  let self := print self out in
  let self := set_messages self (messages self ++ [Message user content]) in
  let has_images := (0 <? List.length image_urls) || (0 <? List.length image_paths) in
  let max_tokens := 4096%Z in
  (self, {| model := "gpt-4o-mini"; req_messages := messages self;
            temperature := "0.7"; max_tokens := max_tokens |}).

(** [get_ai_response] from the return of the call to its end. *)
Definition finish_response (self : ChatApp) (response : Response) : ChatApp :=
  let self :=
    match response with
    | Reply ai_response =>
        let self := set_messages self
                      (messages self ++ [Message assistant (PlainText ai_response)]) in
        let self := set_history_file self (History.save_history (messages self)) in
        set_last_response self (Some ai_response)
    | Raised e => set_last_response self (Some ("Error: " ++ e))
    end in
  set_is_generating self false.

Definition get_ai_response (fs : FileSystem) (self : ChatApp) (user_input : str) : ChatApp :=
  let '(self, request) := begin_response fs self user_input in
  finish_response self (client self request).

Definition new_chat (self : ChatApp) : ChatApp :=
  let self := set_messages self [] in
  set_history_file self (History.save_history (messages self)).

(** *** The asynchronous controller

    [request_async_response] starts [get_ai_response] on a thread and
    watches [is_generating] from [show_thinking_animation], one look
    every tenth of a second, for at most 60 seconds.  Time is counted
    in these tenths.  A call in flight is the answer the service will
    give and the time it still takes; the thread runs up to the call as
    soon as it is started, and from the return of the call to its end
    as soon as the call returns.  The frames of the animation are
    erased when the loop ends and are not recorded. *)

Record Call : Type := {
  remaining : nat;                (* tenths of a second until the call returns *)
  outcome : Response
}.

Record Session : Type := {
  chat : ChatApp;
  in_flight : list Call           (* threads blocked in the service call *)
}.

(** A tenth of a second passes: the calls that are due return, in the
    order they were started, and their threads run to the end. *)
Fixpoint land (self : ChatApp) (calls : list Call) : ChatApp * list Call :=
  match calls with
  | [] => (self, [])
  | c :: rest =>
      match remaining c with
      | S (S n) =>
          let '(self', rest') := land self rest in
          (self', {| remaining := S n; outcome := outcome c |} :: rest')
      | _ => land (finish_response self (outcome c)) rest
      end
  end.

Definition tick (s : Session) : Session :=
  let '(self, calls) := land (chat s) (in_flight s) in
  {| chat := self; in_flight := calls |}.

(** The time spent at the prompt between two requests. *)
Definition idle (tenths : nat) (s : Session) : Session := Nat.iter tenths tick s.

(** The ceiling of the watch: 60 seconds. *)
Definition ceiling : nat := 600.

(** [show_thinking_animation]: the loop runs while [is_generating] is
    set and the time left is not used up, sleeping a tenth of a second
    in each round. *)
Fixpoint show_thinking_animation (time_left : nat) (s : Session) : Session :=
  match time_left with
  | O => s
  | S time_left' =>
      if is_generating (chat s) then show_thinking_animation time_left' (tick s) else s
  end.

Definition no_response_line : str := "AI: Sorry, I couldn't generate a response.".

(** The end of [request_async_response], after the loop. *)
Definition display (self : ChatApp) : ChatApp :=
  match last_response self with
  | Some r => if truthy r then print self ["AI: " ++ r] else print self [no_response_line]
  | None => print self [no_response_line]
  end.

(** [request_async_response]; [latency] is the time the service takes
    to answer this request. *)
Definition request_async_response (fs : FileSystem) (s : Session) (user_input : str)
    (latency : nat) : Session :=
  let self := set_is_generating (chat s) true in
  let '(self, request) := begin_response fs self user_input in
  let call := {| remaining := latency; outcome := client self request |} in
  let s := show_thinking_animation ceiling
             {| chat := self; in_flight := in_flight s ++ [call] |} in
  {| chat := display (chat s); in_flight := in_flight s |}.

(** The state after [__init__], with an empty history. *)
Definition fresh (c : Request -> Response) : Session :=
  {| chat := {| client := c; messages := []; history_file := None;
                is_generating := false; last_response := None; stdout := [] |};
     in_flight := [] |}.

(** [format_history_content] *)
Definition format_history_content (c : content) : str :=
  match c with
  | PlainText text => text
  | Structured items =>
      sep_join " "
        (map (fun item =>
                match item with
                | TextPart t => t
                | ImagePart url =>
                    if startswith "data:image" url then lit "[Local image]"
                    else "[Image: " ++ url ++ "]"
                end) items)
  end.

(** One line typed at the prompt: the time the user takes before
    entering it, the line, and the time the service takes if the line
    is sent. *)
Record Typed : Type := {
  think : nat;
  line : str;
  latency : nat
}.

Definition say (s : Session) (lines : list str) : Session :=
  {| chat := print (chat s) lines; in_flight := in_flight s |}.

(** The loop of [start_chat]. *)
Fixpoint chat_loop (fs : FileSystem) (s : Session) (script : list Typed)
  : Session * ending :=
  match script with
  | [] => (s, EndOfInput)
  | t :: rest =>
      let s := idle (think t) s in
      let user_input := strip (line t) in
      if str_eqb (lower user_input) "quit" then (say s [lit "Goodbye!"], Quit)
      else if str_eqb (lower user_input) "new" then
        let s := {| chat := new_chat (chat s); in_flight := in_flight s |} in
        chat_loop fs (say s [[LF] ++ "Starting new chat..."]) rest
      else if str_eqb (lower user_input) "history" then
        let s := say s [[LF] ++ "Chat History:"] in
        let s := say s (map (fun msg =>
                               let role := match msg_role msg with
                                           | user => lit "You"
                                           | assistant => lit "AI"
                                           end in
                               [LF] ++ role ++ ": "
                               ++ format_history_content (msg_content msg))
                            (messages (chat s))) in
        chat_loop fs s rest
      else if negb (truthy user_input) then chat_loop fs s rest
      else chat_loop fs (request_async_response fs s user_input (latency t)) rest
  end.

(** [ChatApp()]: the key is read from the environment and the history
    from the file.  [Foreign] stands for a file that holds valid JSON
    of another shape than a history, which the typed state cannot
    hold. *)
Inductive startup : Type :=
| Started (s : Session)
| ValueError (message : str)
| Foreign.

Definition init (api_key : option str) (c : Request -> Response)
    (file : option str) : startup :=
  if match api_key with Some k => truthy k | None => false end then
    match History.load_history file with
    | Some (h, printed) =>
        Started {| chat := {| client := c; messages := h; history_file := file;
                              is_generating := false; last_response := None;
                              stdout := printed |};
                   in_flight := [] |}
    | None => Foreign
    end
  else ValueError "OPENAI_API_KEY not found in .env file".

Definition start_chat (fs : FileSystem) (s : Session) (script : list Typed)
  : Session * ending :=
  chat_loop fs
    (say s [[LF] ++ "Welcome to Terminal Chat!";
            lit "Type 'quit' to exit, 'new' to start a new chat, or 'history' to view chat history.";
            lit "To include images:";
            lit "  - Remote images: {{https://example.com/image.jpg}}";
            lit "  - Local images: {{/path/to/image.jpg}}"])
    script.

End ChatWithMediaV2.

(** ** The markers, in the words of the specification *)

(** [s] begins with a marker: two opening braces, an inner string on
    one line, two closing braces. *)
Definition starts_marker (s : str) : Prop :=
  exists m post, s = "{{" ++ m ++ "}}" ++ post /\ ~ In LF m.

(** [text] contains a marker somewhere. *)
Definition has_marker (text : str) : Prop :=
  exists pre rest, text = pre ++ rest /\ starts_marker rest.

(** [Scan text captures remainder]: scanning [text] from the left, the
    markers found are [captures], each the leftmost one after the
    previous and closed by the nearest closing braces, and [remainder]
    is the text outside them. *)
Inductive Scan : str -> list str -> str -> Prop :=
| Scan_none text :
    ~ has_marker text ->
    Scan text [] text
| Scan_marker pre m post captures remainder :
    ~ In LF m ->
    contains "}}" (m ++ "}") = false ->
    (forall pre1 pre2, pre = pre1 ++ pre2 -> pre2 <> [] ->
       ~ starts_marker (pre2 ++ "{{" ++ m ++ "}}" ++ post)) ->
    Scan post captures remainder ->
    Scan (pre ++ "{{" ++ m ++ "}}" ++ post) (m :: captures) (pre ++ remainder).

(** A text given by its pieces: literal stretches and markers. *)
Inductive piece : Type :=
| Lit (s : str)
| Mark (m : str).

Definition render_piece (p : piece) : str :=
  match p with
  | Lit s => s
  | Mark m => "{{" ++ m ++ "}}"
  end.

Definition render (ps : list piece) : str := flat_map render_piece ps.

Definition marks (ps : list piece) : list str :=
  flat_map (fun p => match p with Mark m => [m] | Lit _ => [] end) ps.

Definition lits (ps : list piece) : str :=
  flat_map (fun p => match p with Lit s => s | Mark _ => [] end) ps.

Definition is_brace (c : ascii) : bool := Ascii.eqb c "{"%char || Ascii.eqb c "}"%char.

Definition brace_free (s : str) : bool := forallb (fun c => negb (is_brace c)) s.

(** Outside the markers there is no brace; a marker's inner string
    stays on one line and closes at its end, not before. *)
Definition piece_ok (p : piece) : bool :=
  match p with
  | Lit s => brace_free s
  | Mark m => negb (contains "}}" (m ++ "}")) && forallb (fun c => negb (Ascii.eqb c LF)) m
  end.

Definition well_delimited (ps : list piece) : bool := forallb piece_ok ps.

Definition has_mark (ps : list piece) : bool :=
  existsb (fun p => match p with Mark _ => true | Lit _ => false end) ps.

(** ** Trimming and classifying, in the words of the specification *)

(** The whitespace characters below U+0100: tab to carriage return,
    the four information separators, the space, the next-line control
    and the no-break space. *)
Definition whitespace_codes : list N :=
  [9; 10; 11; 12; 13; 28; 29; 30; 31; 32; 133; 160]%N.

Definition blank (c : ascii) : Prop := In (ord c) whitespace_codes.

(** [t] is [s] trimmed: [s] is [t] between two runs of whitespace, and
    [t] neither begins nor ends with whitespace. *)
Definition trimmed (s t : str) : Prop :=
  exists before after,
    s = before ++ t ++ after /\
    Forall blank before /\ Forall blank after /\
    (forall c r, t = c :: r -> ~ blank c) /\
    (forall r c, t = r ++ [c] -> ~ blank c).

Definition begins_with (p s : str) : Prop := exists rest, s = p ++ rest.

(** A reference is remote when it begins with [http://] or [https://]. *)
Definition remote (ref : str) : Prop :=
  begins_with "http://" ref \/ begins_with "https://" ref.

(** [Classified captures urls paths]: every capture is trimmed; the
    trimmed ones that are remote are [urls], the others are [paths],
    both in the order of the captures and with their repetitions. *)
Inductive Classified : list str -> list str -> list str -> Prop :=
| Classified_nil : Classified [] [] []
| Classified_url m ref captures urls paths :
    trimmed m ref -> remote ref ->
    Classified captures urls paths ->
    Classified (m :: captures) (ref :: urls) paths
| Classified_path m ref captures urls paths :
    trimmed m ref -> ~ remote ref ->
    Classified captures urls paths ->
    Classified (m :: captures) urls (ref :: paths).

(** [s] begins with a pair of delimiters around [m], whatever [m]
    holds but the closing delimiter. *)
Definition delimits (s m : str) : Prop :=
  exists post, s = "{{" ++ m ++ "}}" ++ post /\ contains "}}" (m ++ "}") = false.

(** ** Notions used in the statements *)

Import ChatWithMediaV2.

(** Whether the loop over the local paths adds an image for [path]:
    the file exists, reading it succeeds, and it is not empty. *)
Definition encodes (fs : FileSystem) (path : str) : bool :=
  os_path_exists fs path &&
  match open_rb_read fs path with
  | inr data => truthy (b64encode data)
  | inl _ => false
  end.

(** The parts that one round of that loop adds. *)
Definition local_part (fs : FileSystem) (path : str) : list part :=
  fst (add_local_image fs ([], []) path).

(** The claim of C3, as the specification words it. *)
Definition never_empty (c : content) : Prop :=
  match c with
  | PlainText _ => True
  | Structured parts => parts <> []
  end.

(** The history ends with a user turn followed by an assistant turn. *)
Definition ends_with_pair (h : list message) : Prop :=
  exists h0 u a, h = h0 ++ [Message user u; Message assistant a].

(** A service that is out of reach. *)
Definition unreachable : Request -> Response := fun _ => Raised "Connection error.".

(** A service that always answers. *)
Definition obliging : Request -> Response := fun _ => Reply "I see.".

(** A service that answers with the number of the turn it answers. *)
Definition counting : Request -> Response :=
  fun r => match List.length (req_messages r) with
           | 1 => Reply "one"
           | 2 => Reply "two"
           | _ => Reply "more"
           end.

(** A service that answers the first turn and is out of reach after it. *)
Definition fickle : Request -> Response :=
  fun r => match List.length (req_messages r) with
           | 1 => Reply "one"
           | _ => Raised "Connection error."
           end.

(** The user's turn that [chat_with_media_v2.py] builds from an input. *)
Definition user_turn (fs : FileSystem) (user_input : str) : message :=
  Message user
    (fst (create_message_content fs user_input
            (fst (extract_image_references user_input))
            (snd (extract_image_references user_input)))).

(** The session at the moment [request_async_response] has started its
    thread and is about to watch: the flag is set, the thread has
    appended the user's turn and waits in the call. *)
Definition started (fs : FileSystem) (s : Session) (user_input : str) (latency : nat)
  : Session :=
  let self := set_is_generating (chat s) true in
  let '(self, request) := begin_response fs self user_input in
  {| chat := self;
     in_flight := in_flight s ++ [{| remaining := latency; outcome := client self request |}] |}.

(** The claim of C7 about one request. *)
Definition max_tokens_rule (r : Request) : Prop :=
  if request_has_image r then max_tokens r = 4096%Z
  else (150 <= max_tokens r <= 512)%Z.

(** The image part that the loop over the local paths adds for one
    path: none unless the file exists, can be read and is not empty. *)
Definition local_image (fs : FileSystem) (path : str) : list part :=
  if os_path_exists fs path then
    match open_rb_read fs path with
    | inr (b :: data) => [ImagePart ("data:image/jpeg;base64," ++ b64encode (b :: data))]
    | _ => []
    end
  else [].

(** The line that the loop prints for one path: one when the file is
    missing or cannot be read, none otherwise. *)
Definition complaint (fs : FileSystem) (path : str) : list str :=
  if os_path_exists fs path then
    match open_rb_read fs path with
    | inl e => ["Error encoding image " ++ path ++ ": " ++ e]
    | inr _ => []
    end
  else ["Warning: Image file not found: " ++ path].

(** A file system with a picture, an empty file and a directory. *)
Definition sample_files : FileSystem :=
  {| os_path_exists := fun p =>
       str_eqb p "/img/cat.jpg" || str_eqb p "/img/empty.jpg" || str_eqb p "/img";
     open_rb_read := fun p =>
       if str_eqb p "/img/cat.jpg" then inr (lit "Many hands")
       else if str_eqb p "/img/empty.jpg" then inr []
       else if str_eqb p "/img" then inl (lit "[Errno 21] Is a directory: '/img'")
       else inl (lit "[Errno 2] No such file or directory") |}.

(** The file and the memory agree: the file loads, and the history in
    memory is what it loads as, followed by user turns only. *)
Definition consistent (self : ChatApp) : Prop :=
  exists persisted printed tail,
    History.load_history (history_file self) = Some (persisted, printed) /\
    messages self = persisted ++ tail /\
    Forall (fun m => msg_role m = user) tail.

(** The same for the state of [chat_with_media.py]. *)
Definition consistent_media (self : ChatWithMedia.ChatApp) : Prop :=
  exists persisted printed tail,
    History.load_history (ChatWithMedia.history_file self) = Some (persisted, printed) /\
    ChatWithMedia.messages self = persisted ++ tail /\
    Forall (fun m => msg_role m = user) tail.

(** [p] is the beginning of [s], and not all of it. *)
Definition cut_short (p s : str) : Prop := exists q, q <> [] /\ s = p ++ q.

(** The result of a decoder is the expected one, or a decoding error. *)
Definition ok_or_fails {A} (r : Json.result A) (a : A) : Prop :=
  r = Json.Ok a \/ r = Json.Err Json.JSONDecodeError.

(** With any fuel the scanner reads an encoded document back or gives
    up; it never reads something else. *)
Definition reads_or_fails (v : Json.json) : Prop :=
  Json.plain v ->
  forall fuel level rest,
    ok_or_fails (Json.scan_once fuel (Json.encode level v ++ rest)) (v, rest).

(** The scanner rejects every proper beginning of the encoded document. *)
Definition fails_when_cut (v : Json.json) : Prop :=
  Json.plain v ->
  forall fuel level p,
    cut_short p (Json.encode level v) ->
    Json.scan_once fuel p = Json.Err Json.JSONDecodeError.

(** What a line that is not [quit] does to the state of
    [chat_with_media.py]. *)
Definition media_after_line (self : ChatWithMedia.ChatApp) (l : str) : ChatWithMedia.ChatApp :=
  if str_eqb (lower (strip l)) "new" then ChatWithMedia.new_chat self
  else if str_eqb (lower (strip l)) "history" then self
  else if negb (truthy (strip l)) then self
  else fst (ChatWithMedia.get_ai_response self (strip l)).

(** * Properties *)

(** ** Texts *)

Lemma str_eqb_eq a b : str_eqb a b = true <-> a = b.
Proof.
  revert b. induction a as [|x a IH]; intros [|y b]; simpl;
    try (split; [discriminate | congruence]); [tauto|].
  rewrite andb_true_iff, Ascii.eqb_eq, IH. split; [intros [-> ->] | intros H; inversion H]; auto.
Qed.

Lemma findall_cons c r :
  Re.findall (c :: r) =
  match Re.marker (c :: r) with
  | Some (m, r') => m :: Re.findall r'
  | None => Re.findall r
  end.
Proof.
  rewrite Re.findall_equation_2.
  destruct (Re.inspect (Re.marker (c :: r))) as [[[m r']|] e];
    simp findall; rewrite e; reflexivity.
Qed.

Lemma sub_empty_cons c r :
  Re.sub_empty (c :: r) =
  match Re.marker (c :: r) with
  | Some (m, r') => Re.sub_empty r'
  | None => c :: Re.sub_empty r
  end.
Proof.
  rewrite Re.sub_empty_equation_2.
  destruct (Re.inspect (Re.marker (c :: r))) as [[[m r']|] e];
    simp sub_empty; rewrite e; reflexivity.
Qed.

Example findall_ex :
  Re.findall "see {{ a.png }} and {{http://x/y}} }} {{" = [lit " a.png "; lit "http://x/y"].
Proof. reflexivity. Qed.

Example sub_ex :
  Re.sub_empty "see {{ a.png }} and {{http://x/y}} }} {{" = lit "see  and  }} {{".
Proof. reflexivity. Qed.

Example b64encode_ex : b64encode "Many hands" = lit "TWFueSBoYW5kcw==".
Proof. reflexivity. Qed.

Example dumps_ex :
  Json.dumps (Json.JArr [Json.JObj [(lit "role", Json.JStr "user"); (lit "content", Json.JArr [])]])
  = [chr 91; chr 10] ++ "  {" ++ [chr 10] ++ "    " ++ [chr 34] ++ "role" ++ [chr 34] ++ ": "
    ++ [chr 34] ++ "user" ++ [chr 34] ++ "," ++ [chr 10] ++ "    " ++ [chr 34] ++ "content"
    ++ [chr 34] ++ ": []" ++ [chr 10] ++ "  }" ++ [chr 10] ++ "]".
Proof. reflexivity. Qed.

Example loads_ex :
  Json.loads (" [1, {" ++ [chr 34] ++ "a" ++ [chr 34] ++ " : null}, [ ] , -20 ] ")
  = Json.Ok (Json.JArr [Json.JInt 1; Json.JObj [(lit "a", Json.JNull)]; Json.JArr []; Json.JInt (-20)]).
Proof. reflexivity. Qed.

Lemma startswith2 a b s :
  startswith [a; b] s = true <-> exists t, s = a :: b :: t.
Proof. rewrite startswith_prefix. simpl. tauto. Qed.

Lemma startswith2_cons a b c d s :
  startswith [a; b] (c :: d :: s) = Ascii.eqb a c && Ascii.eqb b d.
Proof. simpl. rewrite andb_true_r. reflexivity. Qed.

Lemma contains_cons p c s :
  contains p (c :: s) = startswith p (c :: s) || contains p s.
Proof. reflexivity. Qed.

(** ** The scanner *)

Lemma close_spec s m r :
  Re.close s = Some (m, r) ->
  s = m ++ "}}" ++ r /\ ~ In LF m /\ contains "}}" (m ++ "}") = false.
Proof.
  revert m r. induction s as [|c s IH]; intros m r; [discriminate|].
  cbn [Re.close]. destruct (startswith "}}" (c :: s)) eqn:E.
  - intros H; inversion H; subst; clear H.
    apply startswith2 in E. destruct E as [t E]. inversion E; subst.
    split; [reflexivity | split; [intros [] | reflexivity]].
  - destruct (Ascii.eqb c LF) eqn:EL; [discriminate|].
    destruct (Re.close s) as [[m' r']|] eqn:C; [|discriminate].
    intros H; inversion H; subst; clear H.
    destruct (IH _ _ eq_refl) as (-> & HLF & Hc).
    repeat split.
    + intros [->|Hin]; [|tauto]. rewrite Ascii.eqb_refl in EL. discriminate.
    + change ((c :: m') ++ "}") with (c :: (m' ++ "}")).
      rewrite contains_cons, Hc, orb_false_r.
      destruct m' as [|d m'']; simpl in E |- *.
      * rewrite andb_true_r in *. exact E.
      * rewrite andb_true_r in *. exact E.
Qed.

Lemma close_lazy m r :
  ~ In LF m -> contains "}}" (m ++ "}") = false ->
  Re.close (m ++ "}}" ++ r) = Some (m, r).
Proof.
  induction m as [|c m IH]; intros HLF Hc.
  - reflexivity.
  - change ((c :: m) ++ "}") with (c :: (m ++ "}")) in Hc.
    rewrite contains_cons in Hc. apply orb_false_iff in Hc. destruct Hc as [Hs Hc].
    change ((c :: m) ++ "}}" ++ r) with (c :: (m ++ "}}" ++ r)).
    cbn [Re.close].
    assert (E : startswith "}}" (c :: m ++ "}}" ++ r) = false).
    { destruct m as [|d m']; simpl in Hs |- *; rewrite andb_true_r in *; exact Hs. }
    rewrite E.
    destruct (Ascii.eqb c LF) eqn:EL.
    + apply Ascii.eqb_eq in EL. subst. exfalso. apply HLF. left. reflexivity.
    + rewrite IH; auto. intros Hin. apply HLF. right. exact Hin.
Qed.

Lemma close_some m r : ~ In LF m -> Re.close (m ++ "}}" ++ r) <> None.
Proof.
  induction m as [|c m IH]; intros HLF.
  - discriminate.
  - change ((c :: m) ++ "}}" ++ r) with (c :: (m ++ "}}" ++ r)).
    cbn [Re.close]. destruct (startswith "}}" (c :: m ++ "}}" ++ r)); [discriminate|].
    destruct (Ascii.eqb c LF) eqn:EL.
    + apply Ascii.eqb_eq in EL. subst. exfalso. apply HLF. left. reflexivity.
    + destruct (Re.close (m ++ "}}" ++ r)) as [[m' r']|] eqn:C; [discriminate|].
      exfalso. apply IH; auto. intros Hin. apply HLF. right. exact Hin.
Qed.

Lemma marker_spec s m r :
  Re.marker s = Some (m, r) ->
  s = "{{" ++ m ++ "}}" ++ r /\ ~ In LF m /\ contains "}}" (m ++ "}") = false.
Proof.
  unfold Re.marker. destruct (startswith "{{" s) eqn:E; [|discriminate].
  apply startswith2 in E. destruct E as [t ->]. simpl skipn.
  intros H. apply close_spec in H. destruct H as (-> & H1 & H2). auto.
Qed.

Lemma marker_lazy m r :
  ~ In LF m -> contains "}}" (m ++ "}") = false ->
  Re.marker ("{{" ++ m ++ "}}" ++ r) = Some (m, r).
Proof. intros H1 H2. unfold Re.marker. simpl. apply close_lazy; assumption. Qed.

Lemma marker_starts s : Re.marker s <> None <-> starts_marker s.
Proof.
  split.
  - destruct (Re.marker s) as [[m r]|] eqn:E; [|congruence].
    intros _. apply marker_spec in E. destruct E as (-> & H1 & _).
    exists m, r. auto.
  - intros (m & post & -> & HLF). unfold Re.marker. simpl.
    apply close_some. exact HLF.
Qed.

Lemma has_marker_nil : ~ has_marker [].
Proof.
  intros (pre & rest & E & (m & post & -> & _)).
  destruct pre; discriminate.
Qed.

Lemma has_marker_cons c r :
  has_marker (c :: r) <-> starts_marker (c :: r) \/ has_marker r.
Proof.
  split.
  - intros (pre & rest & E & Hs). destruct pre as [|d pre].
    + left. simpl in E. subst. exact Hs.
    + right. inversion E; subst. exists pre, rest. auto.
  - intros [Hs | (pre & rest & -> & Hs)].
    + exists [], (c :: r). auto.
    + exists (c :: pre), rest. auto.
Qed.

Lemma findall_nil_iff text : Re.findall text = [] <-> ~ has_marker text.
Proof.
  induction text as [|c r IH].
  - split; [intros _; apply has_marker_nil | reflexivity].
  - rewrite findall_cons, has_marker_cons, <- marker_starts.
    destruct (Re.marker (c :: r)) as [[m r']|] eqn:E.
    + split; [discriminate|]. intros H. exfalso. apply H. left. discriminate.
    + rewrite IH. split; [intros H [H'|H']; [congruence | tauto] | tauto].
Qed.

Lemma sub_empty_no_marker text : ~ has_marker text -> Re.sub_empty text = text.
Proof.
  induction text as [|c r IH]; intros H.
  - reflexivity.
  - rewrite has_marker_cons, <- marker_starts in H.
    rewrite sub_empty_cons.
    destruct (Re.marker (c :: r)) as [[m r']|] eqn:E.
    + exfalso. apply H. left. discriminate.
    + rewrite IH; [reflexivity | tauto].
Qed.

Lemma Scan_skip c r captures remainder :
  Re.marker (c :: r) = None ->
  Scan r captures remainder ->
  Scan (c :: r) captures (c :: remainder).
Proof.
  intros Hm HS. inversion HS as [t Hn | pre m post caps rem H1 H2 H3 H4]; subst.
  - apply Scan_none. rewrite has_marker_cons, <- marker_starts. intros [H|H]; auto.
  - apply Scan_marker with (pre := c :: pre); auto.
    intros pre1 pre2 E Hne. destruct pre1 as [|d pre1].
    + simpl in E. subst pre2. rewrite <- marker_starts. intros H. apply H. exact Hm.
    + inversion E; subst. apply H3 with (pre1 := pre1); auto.
Qed.

Lemma findall_Scan text : Scan text (Re.findall text) (Re.sub_empty text).
Proof.
  remember (List.length text) as n eqn:Hn.
  revert text Hn. induction n as [n IH] using lt_wf_ind. intros text Hn.
  destruct text as [|c r].
  - apply Scan_none, has_marker_nil.
  - rewrite findall_cons, sub_empty_cons.
    destruct (Re.marker (c :: r)) as [[m r']|] eqn:E.
    + pose proof (Re.marker_shorter _ _ _ E) as Hlt.
      apply marker_spec in E. destruct E as (E & H1 & H2). rewrite E.
      apply Scan_marker with (pre := []); auto.
      * intros pre1 pre2 E' Hne. destruct pre1; [|discriminate]. simpl in E'. congruence.
      * eapply IH; [|reflexivity]. subst n. exact Hlt.
    + apply Scan_skip; auto. eapply IH; [|reflexivity]. subst n. simpl. lia.
Qed.

Lemma scan_marker m post :
  ~ In LF m -> contains "}}" (m ++ "}") = false ->
  Re.findall ("{{" ++ m ++ "}}" ++ post) = m :: Re.findall post /\
  Re.sub_empty ("{{" ++ m ++ "}}" ++ post) = Re.sub_empty post.
Proof.
  intros H1 H2.
  change ("{{" ++ m ++ "}}" ++ post) with ("{"%char :: ("{" ++ m ++ "}}" ++ post)).
  rewrite findall_cons, sub_empty_cons.
  change ("{"%char :: ("{" ++ m ++ "}}" ++ post)) with ("{{" ++ m ++ "}}" ++ post).
  rewrite (marker_lazy m post H1 H2). auto.
Qed.

Lemma Scan_functional text captures remainder :
  Scan text captures remainder ->
  captures = Re.findall text /\ remainder = Re.sub_empty text.
Proof.
  induction 1 as [text Hn | pre m post caps rem H1 H2 H3 HS [IH1 IH2]].
  - split.
    + symmetry. apply findall_nil_iff. exact Hn.
    + symmetry. apply sub_empty_no_marker. exact Hn.
  - subst caps rem. induction pre as [|c pre IHp].
    + cbn [app]. destruct (scan_marker m post H1 H2) as [-> ->]. auto.
    + change ((c :: pre) ++ "{{" ++ m ++ "}}" ++ post)
        with (c :: (pre ++ "{{" ++ m ++ "}}" ++ post)).
      rewrite findall_cons, sub_empty_cons.
      destruct (Re.marker (c :: pre ++ "{{" ++ m ++ "}}" ++ post)) as [[m' r']|] eqn:E.
      * exfalso. apply (H3 [] (c :: pre)); [reflexivity | discriminate |].
        apply marker_starts. cbn [app]. rewrite E. discriminate.
      * destruct IHp as [IHa IHb].
        { intros pre1 pre2 Ep Hne. apply (H3 (c :: pre1) pre2); auto.
          cbn [app]. rewrite Ep. reflexivity. }
        split; [exact IHa | cbn [app]; rewrite IHb; reflexivity].
Qed.

(** On a text given by well-delimited pieces the scanner finds exactly
    the marks and leaves exactly the literal stretches. *)
Lemma marker_not_brace c r : is_brace c = false -> Re.marker (c :: r) = None.
Proof.
  unfold is_brace. intros H. apply orb_false_iff in H. destruct H as [H _].
  rewrite Ascii.eqb_sym in H.
  unfold Re.marker. cbn [startswith lit list_ascii_of_string]. rewrite H. reflexivity.
Qed.

Lemma forallb_not_LF m :
  forallb (fun c => negb (Ascii.eqb c LF)) m = true -> ~ In LF m.
Proof.
  rewrite forallb_forall. intros H Hin. specialize (H _ Hin).
  rewrite Ascii.eqb_refl in H. discriminate.
Qed.

Lemma scan_literal s rest :
  brace_free s = true ->
  Re.findall (s ++ rest) = Re.findall rest /\
  Re.sub_empty (s ++ rest) = s ++ Re.sub_empty rest.
Proof.
  induction s as [|c s IH]; intros H; [auto|].
  simpl in H. apply andb_true_iff in H. destruct H as [Hc Hs].
  apply negb_true_iff in Hc.
  change ((c :: s) ++ rest) with (c :: (s ++ rest)).
  rewrite findall_cons, sub_empty_cons, (marker_not_brace c _ Hc).
  destruct (IH Hs) as [-> ->]. auto.
Qed.

Lemma scan_render ps :
  well_delimited ps = true ->
  Re.findall (render ps) = marks ps /\ Re.sub_empty (render ps) = lits ps.
Proof.
  induction ps as [|p ps IH]; intros H.
  - split; reflexivity.
  - simpl in H. apply andb_true_iff in H. destruct H as [Hp Hps].
    destruct (IH Hps) as [IH1 IH2]. destruct p as [s|m]; simpl in Hp.
    + unfold render, marks, lits. cbn [flat_map render_piece].
      fold (render ps) (marks ps) (lits ps).
      destruct (scan_literal s (render ps) Hp) as [-> ->]. rewrite IH1, IH2. auto.
    + apply andb_true_iff in Hp. destruct Hp as [Hb Hl].
      unfold render, marks, lits. cbn [flat_map render_piece].
      fold (render ps) (marks ps) (lits ps).
      rewrite <- !app_assoc.
      apply negb_true_iff in Hb.
      destruct (scan_marker m (render ps) (forallb_not_LF _ Hl) Hb) as [-> ->].
      rewrite IH1, IH2. auto.
Qed.

Lemma has_marker_iff text : has_marker text <-> Re.findall text <> [].
Proof.
  induction text as [|c r IH].
  - split; [intros H; destruct (has_marker_nil H) | intros H; destruct H; reflexivity].
  - rewrite findall_cons, has_marker_cons, <- marker_starts.
    destruct (Re.marker (c :: r)) as [[m r']|] eqn:E.
    + split; [discriminate | intros _; left; discriminate].
    + rewrite IH. split; [intros [H|H]; [congruence | exact H] | auto].
Qed.

(** ** The content composer *)

Lemma filter_app_one {A} (f : A -> bool) l x :
  filter f (l ++ [x]) = filter f l ++ (if f x then [x] else []).
Proof. rewrite filter_app. reflexivity. Qed.

Lemma extract_fold refs urls paths :
  fold_left (fun (acc : list str * list str) ref =>
               let '(urls, file_paths) := acc in
               let ref := strip ref in
               if is_url ref then (urls ++ [ref], file_paths)
               else (urls, file_paths ++ [ref]))
            refs (urls, paths)
  = (urls ++ filter is_url (map strip refs),
     paths ++ filter (fun r => negb (is_url r)) (map strip refs)).
Proof.
  revert urls paths. induction refs as [|r refs IH]; intros urls paths; simpl.
  - rewrite !app_nil_r. reflexivity.
  - destruct (is_url (strip r)); simpl; rewrite IH, <- ?app_assoc; reflexivity.
Qed.

Lemma extract_image_references_filter text :
  extract_image_references text
  = (filter is_url (map strip (Re.findall text)),
     filter (fun r => negb (is_url r)) (map strip (Re.findall text))).
Proof. unfold extract_image_references. rewrite extract_fold. reflexivity. Qed.

Lemma fold_image_urls urls content0 :
  fold_left (fun content url => content ++ [ImagePart url]) urls content0
  = content0 ++ map ImagePart urls.
Proof.
  revert content0. induction urls as [|u urls IH]; intros content0; simpl.
  - rewrite app_nil_r. reflexivity.
  - rewrite IH, <- app_assoc. reflexivity.
Qed.

Lemma fold_image_urls_strip urls content0 :
  fold_left (fun content url => content ++ [ImagePart (strip url)]) urls content0
  = content0 ++ map ImagePart (map strip urls).
Proof.
  revert content0. induction urls as [|u urls IH]; intros content0; simpl.
  - rewrite app_nil_r. reflexivity.
  - rewrite IH, <- app_assoc. reflexivity.
Qed.

Lemma add_local_image_app fs content out path :
  add_local_image fs (content, out) path
  = (content ++ local_part fs path, out ++ snd (add_local_image fs ([], []) path)).
Proof.
  unfold local_part, add_local_image, encode_image_to_base64.
  destruct (os_path_exists fs path); simpl.
  - destruct (open_rb_read fs path) as [e|data]; simpl.
    + rewrite app_nil_r. reflexivity.
    + destruct (truthy (b64encode data)); simpl; rewrite ?app_nil_r; reflexivity.
  - rewrite app_nil_r. reflexivity.
Qed.

Lemma fold_local_images fs paths content out :
  fst (fold_left (add_local_image fs) paths (content, out))
  = content ++ flat_map (local_part fs) paths.
Proof.
  revert content out. induction paths as [|p paths IH]; intros content out;
    cbn [fold_left flat_map].
  - rewrite app_nil_r. reflexivity.
  - rewrite add_local_image_app, IH, <- app_assoc. reflexivity.
Qed.

Lemma local_part_encodes fs path :
  local_part fs path
  = if encodes fs path
    then match open_rb_read fs path with
         | inr data => [ImagePart ("data:image/jpeg;base64," ++ b64encode data)]
         | inl _ => []
         end
    else [].
Proof.
  unfold local_part, add_local_image, encode_image_to_base64, encodes.
  destruct (os_path_exists fs path); simpl; [|reflexivity].
  destruct (open_rb_read fs path) as [e|data]; simpl; [reflexivity|].
  destruct (truthy (b64encode data)); reflexivity.
Qed.

Lemma local_parts_nil fs paths :
  flat_map (local_part fs) paths = [] <->
  forallb (fun p => negb (encodes fs p)) paths = true.
Proof.
  induction paths as [|p paths IH]; simpl; [tauto|].
  rewrite andb_true_iff, <- IH, local_part_encodes.
  destruct (encodes fs p) eqn:E; simpl.
  - unfold encodes in E. destruct (open_rb_read fs p).
    + rewrite andb_false_r in E. discriminate.
    + simpl. split; [discriminate | intros [? _]; discriminate].
  - tauto.
Qed.

(** The content of [create_message_content], in closed form. *)
Lemma create_message_content_parts fs text urls paths :
  fst (create_message_content fs text urls paths)
  = if negb (truthy urls) && negb (truthy paths) then PlainText text
    else Structured
           ((if truthy (strip (Re.sub_empty text))
             then [TextPart (strip (Re.sub_empty text))] else [])
            ++ map ImagePart urls ++ flat_map (local_part fs) paths).
Proof.
  unfold create_message_content.
  destruct (negb (truthy urls) && negb (truthy paths)); [reflexivity|].
  rewrite fold_image_urls.
  match goal with |- context [fold_left ?f ?l ?a] =>
    pose proof (fold_local_images fs paths (fst a) (snd a)) as H;
    destruct (fold_left f l a) as [c2 out] eqn:E end.
  simpl in H. simpl. rewrite <- app_assoc in H.
  rewrite E in H. simpl in H. rewrite H. reflexivity.
Qed.

Lemma truthy_false {A} (l : list A) : truthy l = false <-> l = [].
Proof. destruct l; simpl; split; congruence. Qed.

Lemma truthy_true {A} (l : list A) : truthy l = true <-> l <> [].
Proof. destruct l; simpl; split; congruence. Qed.

Lemma lstrip_incl s c : In c (lstrip s) -> In c s.
Proof.
  induction s as [|d s IH]; simpl; [tauto|].
  destruct (isspace d); simpl; tauto.
Qed.

Lemma strip_incl s c : In c (strip s) -> In c s.
Proof.
  unfold strip, rstrip. intros H. apply in_rev, lstrip_incl, in_rev in H.
  apply lstrip_incl. exact H.
Qed.

Lemma contains_In a p t : contains (a :: p) t = true -> In a t.
Proof.
  induction t as [|c t IH]; [discriminate|].
  rewrite contains_cons. intros H. apply orb_true_iff in H. destruct H as [H|H].
  - simpl in H. apply andb_true_iff in H. destruct H as [H _].
    apply Ascii.eqb_eq in H. left. congruence.
  - right. apply IH, H.
Qed.

Lemma brace_free_no_delimiter t :
  brace_free t = true -> contains "{{" t = false /\ contains "}}" t = false.
Proof.
  unfold brace_free. rewrite forallb_forall. intros H.
  split; apply not_true_is_false; intros Hc; apply contains_In in Hc;
    apply H in Hc; discriminate.
Qed.

Lemma brace_free_strip s : brace_free s = true -> brace_free (strip s) = true.
Proof.
  unfold brace_free. rewrite !forallb_forall. intros H c Hc.
  apply H, strip_incl, Hc.
Qed.

Lemma brace_free_lits ps : well_delimited ps = true -> brace_free (lits ps) = true.
Proof.
  induction ps as [|p ps IH]; intros H; [reflexivity|].
  simpl in H. apply andb_true_iff in H. destruct H as [Hp Hps].
  unfold lits. cbn [flat_map]. fold (lits ps). unfold brace_free.
  rewrite forallb_app. fold (brace_free (lits ps)). rewrite (IH Hps), andb_true_r.
  destruct p; [exact Hp | reflexivity].
Qed.

Lemma has_mark_marks ps : has_mark ps = true -> marks ps <> [].
Proof.
  induction ps as [|p ps IH]; [discriminate|].
  destruct p as [s|m]; simpl; [exact IH | discriminate].
Qed.

Lemma filter_partition_nil {A} (f : A -> bool) l :
  filter f l = [] -> filter (fun x => negb (f x)) l = [] -> l = [].
Proof.
  destruct l as [|x l]; [reflexivity|]. simpl.
  destruct (f x); simpl; discriminate.
Qed.

(** C3, as stated, fails: a message whose only marker names a file that
    cannot be read, with no text outside it, is composed into the empty
    structured sequence. *)
Lemma C3_counterexample :
  extract_image_references "{{missing.jpg}}" = ([], [lit "missing.jpg"]) /\
  fst (create_message_content no_files "{{missing.jpg}}" [] [lit "missing.jpg"])
    = Structured [] /\
  ~ never_empty
      (fst (create_message_content no_files "{{missing.jpg}}" [] [lit "missing.jpg"])).
Proof.
  split; [reflexivity|]. split; [reflexivity|].
  intros H. apply H. reflexivity.
Qed.

(** C3, amended: the content is the original plain text when both
    lists are empty; otherwise it is a structured sequence, and that
    sequence is empty exactly when the cleaned text is empty, no URL
    was extracted and no local path encodes. *)
Theorem C3_content_shape (fs : FileSystem) (text : str) (urls paths : list str) :
  match fst (create_message_content fs text urls paths) with
  | PlainText t => t = text /\ urls = [] /\ paths = []
  | Structured parts =>
      (urls <> [] \/ paths <> []) /\
      (parts = [] <->
       strip (Re.sub_empty text) = [] /\ urls = [] /\
       forallb (fun p => negb (encodes fs p)) paths = true)
  end.
Proof.
  rewrite create_message_content_parts.
  destruct urls as [|u urls]; [destruct paths as [|p paths]|]; cbn [truthy negb andb].
  - auto.
  - split; [right; discriminate|].
    cbn [map app]. rewrite <- local_parts_nil.
    destruct (strip (Re.sub_empty text)) as [|c t]; cbn [truthy app].
    + tauto.
    + split; [discriminate | intros [? _]; discriminate].
  - split; [left; discriminate|].
    split.
    + intros H. apply app_eq_nil in H. destruct H as [_ H]. discriminate.
    + intros (_ & H & _). discriminate.
Qed.

(** C4, as stated, fails: closing braces left outside a marker stay in
    the text part. *)
Lemma C4_counterexample :
  has_marker "{{http://x.test/a.jpg}} }}" /\
  extract_image_references "{{http://x.test/a.jpg}} }}" = ([lit "http://x.test/a.jpg"], []) /\
  fst (create_message_content no_files "{{http://x.test/a.jpg}} }}"
         [lit "http://x.test/a.jpg"] [])
    = Structured [TextPart "}}"; ImagePart "http://x.test/a.jpg"] /\
  contains "}}" "}}" = true.
Proof.
  split; [apply has_marker_iff; discriminate|].
  repeat split; reflexivity.
Qed.

(** C4, amended: when the input has at least one marker, no brace
    outside its markers, and markers whose inner strings hold no line
    break and no closing delimiter, the content is structured and no
    text part contains the opening or the closing delimiter. *)
Theorem C4_no_delimiters_when_well_delimited (fs : FileSystem) (ps : list piece) :
  well_delimited ps = true ->
  has_mark ps = true ->
  has_marker (render ps) /\
  exists parts,
    fst (create_message_content fs (render ps)
           (fst (extract_image_references (render ps)))
           (snd (extract_image_references (render ps)))) = Structured parts /\
    forall t, In (TextPart t) parts ->
      contains "{{" t = false /\ contains "}}" t = false.
Proof.
  intros Hwd Hm. destruct (scan_render ps Hwd) as [Hf Hs].
  pose proof (has_mark_marks ps Hm) as Hne.
  split; [apply has_marker_iff; rewrite Hf; exact Hne|].
  rewrite create_message_content_parts, extract_image_references_filter, Hf, Hs.
  cbn [fst snd].
  destruct (negb (truthy (filter is_url (map strip (marks ps))))
            && negb (truthy (filter (fun r => negb (is_url r)) (map strip (marks ps)))))
    eqn:E.
  - exfalso. apply andb_true_iff in E. destruct E as [E1 E2].
    apply negb_true_iff, truthy_false in E1. apply negb_true_iff, truthy_false in E2.
    pose proof (filter_partition_nil _ _ E1 E2) as H.
    apply map_eq_nil in H. contradiction.
  - eexists. split; [reflexivity|].
    intros t Ht. apply in_app_or in Ht. destruct Ht as [Ht|Ht].
    + destruct (truthy (strip (lits ps))); [|destruct Ht].
      destruct Ht as [Ht|[]]. inversion Ht; subst.
      apply brace_free_no_delimiter, brace_free_strip, brace_free_lits, Hwd.
    + exfalso. apply in_app_or in Ht. destruct Ht as [Ht|Ht].
      * apply in_map_iff in Ht. destruct Ht as (? & ? & _). discriminate.
      * apply in_flat_map in Ht. destruct Ht as (p & _ & Ht).
        rewrite local_part_encodes in Ht.
        destruct (encodes fs p); [|destruct Ht].
        destruct (open_rb_read fs p); [destruct Ht|].
        destruct Ht as [Ht|[]]. discriminate.
Qed.

(** The amended C4 on the scenario of the specification. *)
Lemma C4_no_delimiters_witness :
  has_marker (render [Lit "Look at "; Mark "https://x.test/a.jpg"; Lit " and ";
                      Mark "/no/such/file.jpg"]) /\
  exists parts,
    fst (create_message_content no_files
           (render [Lit "Look at "; Mark "https://x.test/a.jpg"; Lit " and ";
                    Mark "/no/such/file.jpg"])
           (fst (extract_image_references
                   (render [Lit "Look at "; Mark "https://x.test/a.jpg"; Lit " and ";
                            Mark "/no/such/file.jpg"])))
           (snd (extract_image_references
                   (render [Lit "Look at "; Mark "https://x.test/a.jpg"; Lit " and ";
                            Mark "/no/such/file.jpg"])))) = Structured parts /\
    forall t, In (TextPart t) parts ->
      contains "{{" t = false /\ contains "}}" t = false.
Proof.
  apply (C4_no_delimiters_when_well_delimited no_files
           [Lit "Look at "; Mark "https://x.test/a.jpg"; Lit " and ";
            Mark "/no/such/file.jpg"]); reflexivity.
Defined.

(** The scenario of the specification: the text between the markers
    keeps its two spaces and the missing file is dropped. *)
Example scenario_missing_file :
  create_message_content no_files
    "Look at {{https://x.test/a.jpg}} and {{/no/such/file.jpg}}"
    [lit "https://x.test/a.jpg"] [lit "/no/such/file.jpg"]
  = (Structured [TextPart "Look at  and"; ImagePart "https://x.test/a.jpg"],
     [lit "Warning: Image file not found: /no/such/file.jpg"]).
Proof. reflexivity. Qed.

(** C5: a text with no marker is returned as it is, as plain text, by
    both media variants, and nothing is printed. *)
Theorem C5_plain_text_unchanged (fs : FileSystem) (text : str) :
  ~ has_marker text ->
  extract_image_references text = ([], []) /\
  create_message_content fs text
    (fst (extract_image_references text)) (snd (extract_image_references text))
  = (PlainText text, []) /\
  ChatWithMedia.create_message_content text (ChatWithMedia.extract_image_urls text)
  = PlainText text.
Proof.
  intros H. apply findall_nil_iff in H.
  unfold ChatWithMedia.extract_image_urls.
  rewrite extract_image_references_filter, H. repeat split; reflexivity.
Qed.

(** C5 on a text with braces but no marker. *)
Lemma C5_plain_text_witness :
  extract_image_references "what is {a} + }b{{ ?" = ([], []) /\
  create_message_content no_files "what is {a} + }b{{ ?"
    (fst (extract_image_references "what is {a} + }b{{ ?"))
    (snd (extract_image_references "what is {a} + }b{{ ?"))
  = (PlainText "what is {a} + }b{{ ?", []) /\
  ChatWithMedia.create_message_content "what is {a} + }b{{ ?"
    (ChatWithMedia.extract_image_urls "what is {a} + }b{{ ?")
  = PlainText "what is {a} + }b{{ ?".
Proof.
  apply (C5_plain_text_unchanged no_files "what is {a} + }b{{ ?").
  apply findall_nil_iff. reflexivity.
Defined.

(** *** Trimming and the test for a URL

    [strip] and [is_url] against the notions of the specification. *)

Lemma isspace_blank c : isspace c = true <-> blank c.
Proof.
  unfold isspace, blank, whitespace_codes. cbn [In].
  rewrite !orb_true_iff, !andb_true_iff, !N.leb_le, !N.eqb_eq. lia.
Qed.

Lemma not_blank c : isspace c = false <-> ~ blank c.
Proof.
  rewrite <- isspace_blank. destruct (isspace c); split; congruence.
Qed.

Lemma lstrip_blank s : exists a, s = a ++ lstrip s /\ Forall blank a.
Proof.
  induction s as [|c s (a & IH & Ha)]; [exists []; split; [reflexivity | constructor]|].
  cbn [lstrip]. destruct (isspace c) eqn:E.
  - exists (c :: a). split; [cbn [List.app]; congruence|].
    constructor; [apply isspace_blank, E | exact Ha].
  - exists []. split; [reflexivity | constructor].
Qed.

Lemma rstrip_blank s : exists b, s = rstrip s ++ b /\ Forall blank b.
Proof.
  unfold rstrip. destruct (lstrip_blank (rev s)) as (a & H & Ha).
  exists (rev a). split.
  - rewrite <- rev_app_distr, <- H, rev_involutive. reflexivity.
  - apply Forall_rev, Ha.
Qed.

Lemma lstrip_first s c r : lstrip s = c :: r -> ~ blank c.
Proof.
  induction s as [|d s IH]; [discriminate|].
  cbn [lstrip]. destruct (isspace d) eqn:E; [exact IH|].
  intros H. inversion H; subst. apply not_blank, E.
Qed.

Lemma rstrip_last s r c : rstrip s = r ++ [c] -> ~ blank c.
Proof.
  unfold rstrip. intros H. apply (f_equal (@rev ascii)) in H.
  rewrite rev_involutive, rev_app_distr in H. cbn [rev List.app] in H.
  exact (lstrip_first _ _ _ H).
Qed.

Lemma lstrip_skips a s : Forall blank a -> lstrip (a ++ s) = lstrip s.
Proof.
  induction 1 as [|c a Hc Ha IH]; [reflexivity|].
  cbn [List.app lstrip]. apply isspace_blank in Hc. rewrite Hc. exact IH.
Qed.

Lemma lstrip_stops c s : ~ blank c -> lstrip (c :: s) = c :: s.
Proof. intros H. apply not_blank in H. cbn [lstrip]. rewrite H. reflexivity. Qed.

(** [strip] trims. *)
Lemma strip_trimmed s : trimmed s (strip s).
Proof.
  destruct (lstrip_blank s) as (a & Ha & Hba).
  destruct (rstrip_blank (lstrip s)) as (b & Hb & Hbb).
  exists a, b. fold (strip s) in Hb. repeat split; auto.
  - rewrite <- Hb. exact Ha.
  - intros c r E. rewrite E in Hb. exact (lstrip_first s c (r ++ b) Hb).
  - intros r c E. exact (rstrip_last (lstrip s) r c E).
Qed.

(** Nothing else does: the trimmed form of a text is unique. *)
Lemma trimmed_strip s t : trimmed s t -> t = strip s.
Proof.
  intros (a & b & -> & Ha & Hb & Hfirst & Hlast).
  unfold strip. rewrite (lstrip_skips a _ Ha).
  destruct t as [|c r].
  - cbn [List.app]. rewrite <- (app_nil_r b), (lstrip_skips b [] Hb). reflexivity.
  - cbn [List.app]. rewrite (lstrip_stops c _ (Hfirst c r eq_refl)).
    unfold rstrip. change (c :: r ++ b) with ((c :: r) ++ b).
    rewrite rev_app_distr, (lstrip_skips (rev b) _ (Forall_rev Hb)).
    destruct (exists_last (l := c :: r)) as (r' & c' & E); [discriminate|].
    rewrite E, rev_app_distr. cbn [rev List.app].
    rewrite (lstrip_stops c' _ (Hlast r' c' E)).
    change (c' :: rev r') with (rev [c'] ++ rev r').
    rewrite <- rev_app_distr, rev_involutive. reflexivity.
Qed.

(** [is_url] is the test of the specification. *)
Lemma is_url_remote ref : is_url ref = true <-> remote ref.
Proof.
  unfold is_url, remote, begins_with.
  rewrite orb_true_iff, !startswith_prefix. reflexivity.
Qed.

Lemma not_url_not_remote ref : is_url ref = false <-> ~ remote ref.
Proof.
  rewrite <- is_url_remote. destruct (is_url ref); split; congruence.
Qed.

(** The two lists that the loop builds are the classified captures, and
    the classification leaves no choice. *)
Lemma filter_Classified captures :
  Classified captures
    (filter is_url (map strip captures))
    (filter (fun ref => negb (is_url ref)) (map strip captures)).
Proof.
  induction captures as [|m captures IH]; [constructor|].
  cbn [map filter]. destruct (is_url (strip m)) eqn:E; cbn [negb].
  - apply Classified_url; [apply strip_trimmed | apply is_url_remote, E | exact IH].
  - apply Classified_path; [apply strip_trimmed | apply not_url_not_remote, E | exact IH].
Qed.

Lemma Classified_filter captures urls paths :
  Classified captures urls paths ->
  urls = filter is_url (map strip captures) /\
  paths = filter (fun ref => negb (is_url ref)) (map strip captures).
Proof.
  induction 1 as [|m ref captures urls paths Ht Hr _ [IH1 IH2]
                   |m ref captures urls paths Ht Hr _ [IH1 IH2]].
  - split; reflexivity.
  - apply trimmed_strip in Ht. subst ref. apply is_url_remote in Hr.
    cbn [map filter]. rewrite Hr. cbn [negb]. split; congruence.
  - apply trimmed_strip in Ht. subst ref. apply not_url_not_remote in Hr.
    cbn [map filter]. rewrite Hr. cbn [negb]. split; congruence.
Qed.

(** C6, as stated, fails on a text that is not one line: a pair of
    delimiters with a line break between them is not scanned.  The
    inner string here is its own trimmed form and is not remote, so the
    claim makes it a local path; the function returns no reference. *)
Lemma C6_counterexample :
  let m := "a" ++ [LF] ++ "b" in
  let text := "{{" ++ m ++ "}}" in
  delimits text m /\
  trimmed m m /\
  ~ remote m /\
  extract_image_references text = ([], []).
Proof.
  cbv zeta. split; [|split; [|split]].
  - exists []. split; reflexivity.
  - pose proof (strip_trimmed ("a" ++ [LF] ++ "b")) as H. exact H.
  - apply not_url_not_remote. reflexivity.
  - reflexivity.
Qed.

(** C6, amended: the markers whose inner string stays on one line are
    scanned from the left, each the leftmost after the one before and
    closed by the nearest closing braces, and that scan is unique.
    Every capture is trimmed: the whitespace at its two ends is
    removed.  The trimmed capture goes to the URLs exactly when it
    begins with [http://] or [https://], and to the local paths
    otherwise; both lists keep the order of the text and its
    repetitions, and they are the only lists that do all this. *)
Theorem C6_extract_image_references (text : str) :
  exists captures remainder,
    Scan text captures remainder /\
    (forall captures' remainder',
       Scan text captures' remainder' -> captures' = captures) /\
    Classified captures
      (fst (extract_image_references text)) (snd (extract_image_references text)) /\
    (forall urls paths,
       Classified captures urls paths -> extract_image_references text = (urls, paths)).
Proof.
  exists (Re.findall text), (Re.sub_empty text).
  split; [apply findall_Scan|]. split; [|split].
  - intros c r H. apply Scan_functional in H. tauto.
  - rewrite extract_image_references_filter. apply filter_Classified.
  - intros urls paths H. apply Classified_filter in H. destruct H as [-> ->].
    apply extract_image_references_filter.
Qed.

(** On a text without line feed, as a line read at the prompt is, every
    pair of delimiters with a text between them is a marker. *)
Lemma single_line_marker text pre m post :
  ~ In LF text ->
  text = pre ++ "{{" ++ m ++ "}}" ++ post ->
  starts_marker ("{{" ++ m ++ "}}" ++ post).
Proof.
  intros H ->. exists m, post. split; [reflexivity|].
  intros Hin. apply H. apply in_or_app. right.
  apply in_or_app. right. apply in_or_app. left. exact Hin.
Qed.

Example extract_order :
  extract_image_references "x {{ b.png}} y {{https://a.test/a.png }} z {{c.png}}"
  = ([lit "https://a.test/a.png"], [lit "b.png"; lit "c.png"]).
Proof. reflexivity. Qed.

Example extract_lazy :
  extract_image_references "{{a}} and }} {{ HTTP://b }}"
  = ([], [lit "a"; lit "HTTP://b"]).
Proof. reflexivity. Qed.

(** C10: when every marker holds a URL, the first media variant and the
    second compose the same content. *)
Theorem C10_variants_agree_on_urls (fs : FileSystem) (text : str) :
  Forall (fun ref => is_url (strip ref) = true) (Re.findall text) ->
  ChatWithMedia.create_message_content text (ChatWithMedia.extract_image_urls text)
  = fst (create_message_content fs text
           (fst (extract_image_references text))
           (snd (extract_image_references text))).
Proof.
  intros H. rewrite create_message_content_parts, extract_image_references_filter.
  cbn [fst snd]. unfold ChatWithMedia.extract_image_urls, ChatWithMedia.create_message_content.
  assert (H1 : filter is_url (map strip (Re.findall text)) = map strip (Re.findall text)).
  { induction H as [|r l Hr Hl IH]; simpl; [reflexivity|]. rewrite Hr, IH. reflexivity. }
  assert (H2 : filter (fun r => negb (is_url r)) (map strip (Re.findall text)) = []).
  { induction H as [|r l Hr Hl IH]; simpl; [reflexivity|]. rewrite Hr. simpl. apply IH; auto.
    simpl in H1. rewrite Hr in H1. inversion H1. congruence. }
  rewrite H1, H2, fold_image_urls_strip. cbn [truthy negb flat_map].
  rewrite andb_true_r, app_nil_r.
  destruct (Re.findall text); reflexivity.
Qed.

(** C10 on a text with two URL markers, one of them padded. *)
Lemma C10_variants_agree_witness :
  ChatWithMedia.create_message_content "compare {{ http://a.test/1.png }} with {{https://b.test/2.png}}"
    (ChatWithMedia.extract_image_urls "compare {{ http://a.test/1.png }} with {{https://b.test/2.png}}")
  = fst (create_message_content no_files "compare {{ http://a.test/1.png }} with {{https://b.test/2.png}}"
           (fst (extract_image_references "compare {{ http://a.test/1.png }} with {{https://b.test/2.png}}"))
           (snd (extract_image_references "compare {{ http://a.test/1.png }} with {{https://b.test/2.png}}"))).
Proof.
  apply (C10_variants_agree_on_urls no_files).
  vm_compute. repeat constructor.
Defined.

(** With a local path among the markers the variants differ: the first
    sends the path as if it were a URL. *)
Example variants_differ_on_paths :
  ChatWithMedia.create_message_content "see {{/tmp/a.jpg}}"
    (ChatWithMedia.extract_image_urls "see {{/tmp/a.jpg}}")
  = Structured [TextPart "see"; ImagePart "/tmp/a.jpg"] /\
  fst (create_message_content no_files "see {{/tmp/a.jpg}}" [] [lit "/tmp/a.jpg"])
  = Structured [TextPart "see"].
Proof. split; reflexivity. Qed.

(** ** The completion call and the history *)

Lemma single_turn_not_pair m : ~ ends_with_pair [m].
Proof.
  intros (h0 & u & a & H). apply (f_equal (@List.length message)) in H.
  rewrite length_app in H. simpl in H. lia.
Qed.

(** C1, as stated, fails: when the call raises, the error text is kept
    for display but no assistant turn enters the history. *)
Lemma C1_counterexample :
  let self := get_ai_response no_files (chat (fresh unreachable)) "hello" in
  messages self = [Message user (PlainText "hello")] /\
  last_response self = Some (lit "Error: Connection error.") /\
  ~ ends_with_pair (messages self) /\
  let '(self', answer) :=
    Chat.get_ai_response
      {| Chat.client := unreachable; Chat.messages := []; Chat.history_file := None |}
      "hello" in
  Chat.messages self' = [Message user (PlainText "hello")] /\
  answer = lit "Error: Connection error." /\
  ~ ends_with_pair (Chat.messages self').
Proof.
  cbv zeta. split; [reflexivity|]. split; [reflexivity|].
  split; [apply single_turn_not_pair|].
  cbn. split; [reflexivity|]. split; [reflexivity|]. apply single_turn_not_pair.
Qed.

Lemma begin_response_spec fs self user_input :
  let '(self1, request) := begin_response fs self user_input in
  messages self1 = messages self ++ [user_turn fs user_input] /\
  history_file self1 = history_file self /\
  last_response self1 = last_response self /\
  is_generating self1 = is_generating self /\
  client self1 = client self /\
  request = {| model := "gpt-4o-mini";
               req_messages := messages self ++ [user_turn fs user_input];
               temperature := "0.7"; max_tokens := 4096 |}.
Proof.
  unfold begin_response, user_turn.
  destruct (extract_image_references user_input) as [urls paths]. cbn [fst snd].
  destruct (create_message_content fs user_input urls paths) as [c out].
  cbn. auto 10.
Qed.

(** What [get_ai_response] leaves when nothing else touches the state
    between its first line and its last. *)
Lemma finish_response_spec self response :
  let self' := finish_response self response in
  is_generating self' = false /\
  stdout self' = stdout self /\
  client self' = client self /\
  match response with
  | Reply answer =>
      messages self' = messages self ++ [Message assistant (PlainText answer)] /\
      history_file self' = History.save_history (messages self') /\
      last_response self' = Some answer
  | Raised e =>
      messages self' = messages self /\
      history_file self' = history_file self /\
      last_response self' = Some ("Error: " ++ e)
  end.
Proof. destruct response; cbn; auto 10. Qed.

Lemma get_ai_response_alone fs self user_input :
  let self' := get_ai_response fs self user_input in
  let turn := user_turn fs user_input in
  match client self (snd (begin_response fs self user_input)) with
  | Reply answer =>
      messages self' = messages self ++ [turn; Message assistant (PlainText answer)] /\
      last_response self' = Some answer
  | Raised e =>
      messages self' = messages self ++ [turn] /\
      last_response self' = Some ("Error: " ++ e)
  end.
Proof.
  cbv zeta. unfold get_ai_response.
  pose proof (begin_response_spec fs self user_input) as H.
  destruct (begin_response fs self user_input) as [self1 request].
  destruct H as (Hm & _ & _ & _ & Hc & _). cbn [snd]. rewrite Hc.
  destruct (client self request) as [answer|e]; cbn.
  - rewrite Hm, <- app_assoc. auto.
  - auto.
Qed.

(** [get_ai_response] of [chat.py]. *)
Lemma chat_get_ai_response_spec (app0 : Chat.ChatApp) (user_input : str) :
  let '(app1, answer) := Chat.get_ai_response app0 user_input in
  let turn := Message user (PlainText user_input) in
  match Chat.client app0 (Chat.request_of app0 user_input) with
  | Reply r =>
      Chat.messages app1 = Chat.messages app0 ++ [turn; Message assistant (PlainText r)] /\
      answer = r
  | Raised e =>
      Chat.messages app1 = Chat.messages app0 ++ [turn] /\
      answer = "Error: " ++ e
  end.
Proof.
  unfold Chat.get_ai_response.
  destruct (Chat.client app0 (Chat.request_of app0 user_input)) as [r|e]; cbn.
  - rewrite <- app_assoc. auto.
  - auto.
Qed.

(** ** The size of the answer *)

(** C7, as stated, fails: [chat_with_media.py] looks at the markers of
    the input being sent, not at the request.  After a turn with an
    image, a turn without one goes out with the image still in the
    history and with the small limit. *)
Lemma C7_counterexample :
  let app0 := {| ChatWithMedia.client := obliging; ChatWithMedia.messages := [];
                 ChatWithMedia.history_file := None |} in
  let app1 := fst (ChatWithMedia.get_ai_response app0 "look {{http://x.test/a.png}}") in
  let request := ChatWithMedia.request_of app1 "and now?" in
  request_has_image request = true /\
  max_tokens request = 512%Z /\
  ~ max_tokens_rule request.
Proof.
  cbv zeta. split; [reflexivity|]. split; [reflexivity|].
  unfold max_tokens_rule.
  replace (request_has_image _) with true by reflexivity.
  replace (max_tokens _) with 512%Z by reflexivity. discriminate.
Qed.

Lemma media_content_has_image text :
  has_image_part
    (ChatWithMedia.create_message_content text (ChatWithMedia.extract_image_urls text))
  = truthy (ChatWithMedia.extract_image_urls text).
Proof.
  unfold ChatWithMedia.create_message_content.
  destruct (ChatWithMedia.extract_image_urls text) as [|u urls]; [reflexivity|].
  cbn [truthy negb]. rewrite fold_image_urls_strip. cbn [has_image_part map].
  rewrite existsb_app. cbn. apply orb_true_r.
Qed.

(** C7, amended: [chat.py] sends plain text with the limit 150;
    [chat_with_media.py] sends the limit 4096 when the message being
    sent has an image part and 512 when it has none, whatever the
    earlier messages of the request hold. *)
Theorem C7_max_tokens (app0 : Chat.ChatApp) (app1 : ChatWithMedia.ChatApp)
    (user_input : str) :
  (max_tokens (Chat.request_of app0 user_input) = 150%Z /\
   req_messages (Chat.request_of app0 user_input)
   = Chat.messages app0 ++ [Message user (PlainText user_input)]) /\
  (let content := ChatWithMedia.create_message_content user_input
                    (ChatWithMedia.extract_image_urls user_input) in
   req_messages (ChatWithMedia.request_of app1 user_input)
   = ChatWithMedia.messages app1 ++ [Message user content] /\
   max_tokens (ChatWithMedia.request_of app1 user_input)
   = if has_image_part content then 4096%Z else 512%Z).
Proof.
  split; [split; reflexivity|]. cbv zeta. split; [reflexivity|].
  rewrite media_content_has_image. reflexivity.
Qed.

(** [chat_with_media_v2.py] computes [has_images] and then sends 4096
    in every request. *)
Lemma v2_max_tokens_constant fs self user_input :
  max_tokens (snd (begin_response fs self user_input)) = 4096%Z.
Proof.
  pose proof (begin_response_spec fs self user_input) as H.
  destruct (begin_response fs self user_input) as [self1 request].
  destruct H as (_ & _ & _ & _ & _ & ->). reflexivity.
Qed.

(** ** The asynchronous controller *)

(** While the call in flight is not due, the watch goes on and nothing
    changes but the time. *)
Lemma animation_waits time_left self c :
  is_generating self = true ->
  time_left < remaining c ->
  show_thinking_animation time_left {| chat := self; in_flight := [c] |}
  = {| chat := self;
       in_flight := [{| remaining := remaining c - time_left; outcome := outcome c |}] |}.
Proof.
  revert c. induction time_left as [|time_left IH]; intros c Hg Hlt.
  - cbn [show_thinking_animation]. rewrite Nat.sub_0_r. destruct c; reflexivity.
  - cbn [show_thinking_animation chat]. rewrite Hg.
    destruct c as [[|[|n]] o]; cbn [remaining] in Hlt; try lia.
    unfold tick. cbn [chat in_flight land remaining outcome].
    rewrite IH by (cbn [remaining]; auto; lia).
    cbn [remaining outcome]. reflexivity.
Qed.

Lemma finish_response_done self response :
  is_generating (finish_response self response) = false.
Proof. destruct response; reflexivity. Qed.

Lemma animation_stops time_left s :
  is_generating (chat s) = false -> show_thinking_animation time_left s = s.
Proof. intros H. destruct time_left; cbn [show_thinking_animation]; [|rewrite H]; reflexivity. Qed.

(** A call that is due within the time left ends the watch when it
    returns. *)
Lemma animation_lands time_left self c :
  is_generating self = true ->
  remaining c <= time_left ->
  1 <= time_left ->
  show_thinking_animation time_left {| chat := self; in_flight := [c] |}
  = {| chat := finish_response self (outcome c); in_flight := [] |}.
Proof.
  revert c. induction time_left as [|n IH]; intros c Hg Hle Hpos; [lia|].
  cbn [show_thinking_animation chat]. rewrite Hg.
  unfold tick. cbn [chat in_flight land].
  destruct (remaining c) as [|[|k]] eqn:E.
  - apply animation_stops. apply finish_response_done.
  - apply animation_stops. apply finish_response_done.
  - cbn [land].
    apply (IH {| remaining := S k; outcome := outcome c |}); cbn [remaining]; auto; lia.
Qed.

Lemma begin_response_flag fs self user_input b :
  begin_response fs (set_is_generating self b) user_input
  = (set_is_generating (fst (begin_response fs self user_input)) b,
     snd (begin_response fs self user_input)).
Proof.
  unfold begin_response. destruct (extract_image_references user_input) as [u p].
  destruct (create_message_content fs user_input u p) as [c o]. reflexivity.
Qed.

(** *** Time passing with one call in flight *)

Lemma idle_succ n s : idle (S n) s = idle n (tick s).
Proof. unfold idle. apply Nat.iter_succ_r. Qed.

Lemma idle_nothing n self :
  idle n {| chat := self; in_flight := [] |} = {| chat := self; in_flight := [] |}.
Proof. induction n as [|n IH]; [reflexivity|]. rewrite idle_succ. exact IH. Qed.

(** Until the call is due nothing changes but the time it still takes. *)
Lemma idle_waits n self c :
  n < remaining c ->
  idle n {| chat := self; in_flight := [c] |}
  = {| chat := self;
       in_flight := [{| remaining := remaining c - n; outcome := outcome c |}] |}.
Proof.
  revert c. induction n as [|n IH]; intros c Hlt.
  - cbn [idle Nat.iter]. rewrite Nat.sub_0_r. destruct c; reflexivity.
  - rewrite idle_succ.
    destruct c as [[|[|k]] o]; cbn [remaining] in Hlt; try lia.
    unfold tick. cbn [chat in_flight land remaining outcome].
    rewrite IH by (cbn [remaining]; lia).
    cbn [remaining outcome]. reflexivity.
Qed.

(** Once it is due its thread has run to the end. *)
Lemma idle_lands n self c :
  remaining c <= n ->
  1 <= n ->
  idle n {| chat := self; in_flight := [c] |}
  = {| chat := finish_response self (outcome c); in_flight := [] |}.
Proof.
  revert c. induction n as [|n IH]; intros c Hle Hpos; [lia|].
  rewrite idle_succ. unfold tick. cbn [chat in_flight land].
  destruct (remaining c) as [|[|k]] eqn:E.
  - apply idle_nothing.
  - apply idle_nothing.
  - cbn [land].
    apply (IH {| remaining := S k; outcome := outcome c |}); cbn [remaining]; lia.
Qed.

(** The watch is time passing: it ends in a state that the session
    reaches by itself within the time given. *)
Lemma animation_is_idle time_left : forall s,
  exists elapsed,
    elapsed <= time_left /\ show_thinking_animation time_left s = idle elapsed s.
Proof.
  induction time_left as [|n IH]; intros s.
  - exists 0. split; [lia | reflexivity].
  - cbn [show_thinking_animation]. destruct (is_generating (chat s)).
    + destruct (IH (tick s)) as (k & Hk & E). exists (S k).
      split; [lia | rewrite idle_succ; exact E].
    + exists 0. split; [lia | reflexivity].
Qed.

(** [request_async_response] is the start of the thread, the watch and
    the display. *)
Lemma request_async_response_started fs s user_input latency :
  request_async_response fs s user_input latency
  = let s1 := show_thinking_animation ceiling (started fs s user_input latency) in
    {| chat := display (chat s1); in_flight := in_flight s1 |}.
Proof.
  unfold request_async_response, started.
  destruct (begin_response fs (set_is_generating (chat s) true) user_input) as [self1 request].
  reflexivity.
Qed.

Lemma started_alone fs s user_input latency :
  in_flight s = [] ->
  started fs s user_input latency
  = {| chat := set_is_generating (fst (begin_response fs (chat s) user_input)) true;
       in_flight := [{| remaining := latency;
                        outcome := client (chat s)
                                     (snd (begin_response fs (chat s) user_input)) |}] |}.
Proof.
  intros Hin. unfold started. rewrite begin_response_flag, Hin.
  pose proof (begin_response_spec fs (chat s) user_input) as H.
  destruct (begin_response fs (chat s) user_input) as [self1 request].
  destruct H as (_ & _ & _ & _ & Hc & _). cbn [fst snd List.app client set_is_generating].
  rewrite Hc. reflexivity.
Qed.

Lemma display_keeps self :
  messages (display self) = messages self /\
  history_file (display self) = history_file self /\
  last_response (display self) = last_response self /\
  is_generating (display self) = is_generating self.
Proof.
  unfold display. destruct (last_response self) as [r|] eqn:E; [destruct (truthy r)|];
    cbn [print messages history_file last_response is_generating]; rewrite ?E; auto.
Qed.

(** The state of the history, of the file and of the pending response
    is the same function of the history and the file before, whatever
    else the state holds. *)
Lemma finish_response_same self self' response :
  messages self' = messages self ->
  history_file self' = history_file self ->
  messages (finish_response self' response) = messages (finish_response self response) /\
  history_file (finish_response self' response)
  = history_file (finish_response self response) /\
  last_response (finish_response self' response)
  = last_response (finish_response self response).
Proof.
  intros Hm Hf. destruct response as [answer|e]; cbn; rewrite ?Hm, ?Hf; auto.
Qed.

(** A request made with no other call in flight, and the time [wait]
    spent at the prompt after it.  When the call has returned by then,
    within the watch or after it, its thread has run to the end on the
    state that [begin_response] left; when it has not, that state is
    still there and the call is still in flight. *)
Lemma request_alone fs s user_input latency wait :
  in_flight s = [] ->
  let s' := idle wait (request_async_response fs s user_input latency) in
  let self1 := fst (begin_response fs (chat s) user_input) in
  let response := client (chat s) (snd (begin_response fs (chat s) user_input)) in
  (latency <= ceiling + wait ->
   in_flight s' = [] /\
   is_generating (chat s') = false /\
   messages (chat s') = messages (finish_response self1 response) /\
   history_file (chat s') = history_file (finish_response self1 response) /\
   last_response (chat s') = last_response (finish_response self1 response)) /\
  (ceiling + wait < latency ->
   in_flight s' = [{| remaining := latency - ceiling - wait; outcome := response |}] /\
   is_generating (chat s') = true /\
   messages (chat s') = messages self1 /\
   history_file (chat s') = history_file self1 /\
   last_response (chat s') = last_response (chat s)).
Proof.
  intros Hin. cbv zeta.
  rewrite request_async_response_started, (started_alone _ _ _ _ Hin). cbv zeta.
  set (self1 := fst (begin_response fs (chat s) user_input)).
  set (response := client (chat s) (snd (begin_response fs (chat s) user_input))).
  assert (Hl : last_response self1 = last_response (chat s)).
  { subst self1. pose proof (begin_response_spec fs (chat s) user_input) as H.
    destruct (begin_response fs (chat s) user_input) as [x request].
    destruct H as (_ & _ & H & _). exact H. }
  destruct (le_lt_dec latency ceiling) as [Hle|Hgt].
  - rewrite animation_lands by (cbn [remaining]; auto; unfold ceiling in *; lia).
    cbn [chat in_flight outcome]. rewrite idle_nothing. cbn [chat in_flight].
    destruct (display_keeps (finish_response (set_is_generating self1 true) response))
      as (Dm & Df & Dl & Dg).
    destruct (finish_response_same self1 (set_is_generating self1 true) response
                eq_refl eq_refl) as (Fm & Ff & Fl).
    split; [|intros; lia]. intros _.
    rewrite Dm, Df, Dl, Dg, Fm, Ff, Fl, finish_response_done. auto.
  - rewrite animation_waits by (cbn [remaining]; auto).
    cbn [chat in_flight remaining outcome].
    destruct (display_keeps (set_is_generating self1 true)) as (Dm & Df & Dl & Dg).
    split; intros Hw.
    + rewrite idle_lands by (cbn [remaining]; lia).
      cbn [chat in_flight outcome].
      destruct (finish_response_same self1 (display (set_is_generating self1 true)) response
                  Dm Df) as (Fm & Ff & Fl).
      rewrite Fm, Ff, Fl, finish_response_done. auto.
    + rewrite idle_waits by (cbn [remaining]; lia).
      cbn [chat in_flight remaining outcome].
      rewrite Dm, Df, Dl, Dg. cbn [set_is_generating messages history_file last_response
                                   is_generating].
      auto.
Qed.

(** C1, amended.  In [chat.py] the user's turn is appended before the
    call; when the call returns, the reply follows it in the history;
    when the call raises, the failure becomes the text [Error: ...]
    returned as the answer, and the history ends with the user's turn.
    In [chat_with_media_v2.py] the same holds of a request made with no
    other call in flight and with nothing entered until its call has
    returned, within the watch or after it: the error text is kept in
    [last_response] and no assistant turn enters the history. *)
Theorem C1_failure_becomes_text (fs : FileSystem) (s : Session) (app0 : Chat.ChatApp)
    (user_input : str) (latency wait : nat) :
  (in_flight s = [] ->
   latency <= ceiling + wait ->
   let s' := idle wait (request_async_response fs s user_input latency) in
   let turn := user_turn fs user_input in
   in_flight s' = [] /\
   is_generating (chat s') = false /\
   match client (chat s) (snd (begin_response fs (chat s) user_input)) with
   | Reply answer =>
       messages (chat s')
       = messages (chat s) ++ [turn; Message assistant (PlainText answer)] /\
       last_response (chat s') = Some answer
   | Raised e =>
       messages (chat s') = messages (chat s) ++ [turn] /\
       last_response (chat s') = Some ("Error: " ++ e)
   end) /\
  (let '(app1, answer) := Chat.get_ai_response app0 user_input in
   let turn := Message user (PlainText user_input) in
   match Chat.client app0 (Chat.request_of app0 user_input) with
   | Reply r =>
       Chat.messages app1 = Chat.messages app0 ++ [turn; Message assistant (PlainText r)] /\
       answer = r
   | Raised e =>
       Chat.messages app1 = Chat.messages app0 ++ [turn] /\
       answer = "Error: " ++ e
   end).
Proof.
  split; [|apply chat_get_ai_response_spec].
  intros Hin Hlat. cbv zeta.
  destruct (request_alone fs s user_input latency wait Hin) as [H _].
  destruct (H Hlat) as (Hi & Hg & Hm & _ & Hl). clear H.
  split; [exact Hi|]. split; [exact Hg|]. rewrite Hm, Hl.
  pose proof (begin_response_spec fs (chat s) user_input) as H.
  destruct (begin_response fs (chat s) user_input) as [self1 request].
  destruct H as (Hb & _). cbn [fst snd].
  destruct (client (chat s) request) as [answer|e]; cbn.
  - rewrite Hb, <- app_assoc. auto.
  - auto.
Qed.

(** C1 on a call that fails after the watch has given it up: 70 seconds
    for the call, and 15 seconds at the prompt after the 60 of the
    watch. *)
Lemma C1_failure_becomes_text_witness :
  (let s' := idle 150 (request_async_response no_files (fresh unreachable) "hello" 700) in
   in_flight s' = [] /\
   is_generating (chat s') = false /\
   messages (chat s') = [Message user (PlainText "hello")] /\
   last_response (chat s') = Some (lit "Error: Connection error.")) /\
  (let s' := idle 0 (request_async_response no_files (fresh obliging) "hello" 20) in
   in_flight s' = [] /\
   is_generating (chat s') = false /\
   messages (chat s')
   = [Message user (PlainText "hello"); Message assistant (PlainText "I see.")] /\
   last_response (chat s') = Some (lit "I see.")).
Proof.
  split.
  - apply (proj1 (C1_failure_becomes_text no_files (fresh unreachable)
                    {| Chat.client := unreachable; Chat.messages := [];
                       Chat.history_file := None |} "hello" 700 150));
      [reflexivity | unfold ceiling; lia].
  - apply (proj1 (C1_failure_becomes_text no_files (fresh obliging)
                    {| Chat.client := obliging; Chat.messages := [];
                       Chat.history_file := None |} "hello" 20 0));
      [reflexivity | unfold ceiling; lia].
Defined.

(** With another call in flight this is not so.  The first call is
    given up at the ceiling and returns during the watch of the second
    request: its reply enters the history after the second user turn
    and is written to the file with it, while the second call is still
    in flight; when that call fails, the history and the file stay as
    they are. *)
Example overlapping_calls :
  let s1 := request_async_response no_files (fresh fickle) "first" 700 in
  let s2 := request_async_response no_files s1 "second" 300 in
  let s3 := idle 200 s2 in
  let history := [Message user (PlainText "first"); Message user (PlainText "second");
                  Message assistant (PlainText "one")] in
  in_flight s1 = [{| remaining := 100; outcome := Reply "one" |}] /\
  in_flight s2 = [{| remaining := 200; outcome := Raised "Connection error." |}] /\
  messages (chat s2) = history /\
  history_file (chat s2) = History.save_history history /\
  in_flight s3 = [] /\
  last_response (chat s3) = Some (lit "Error: Connection error.") /\
  messages (chat s3) = history /\
  history_file (chat s3) = History.save_history history.
Proof. vm_compute. repeat split; reflexivity. Qed.

(** In general: when no other call is in flight and the service takes
    longer than the ceiling, the foreground prints the last response the
    state holds, which is the answer to an earlier request if there was
    one, and the no-response line otherwise. *)
Lemma timeout_shows_last_response fs s user_input latency :
  in_flight s = [] ->
  ceiling < latency ->
  let s' := request_async_response fs s user_input latency in
  stdout (chat s')
  = stdout (fst (begin_response fs (chat s) user_input))
    ++ [match last_response (chat s) with
        | Some r => if truthy r then "AI: " ++ r else no_response_line
        | None => no_response_line
        end] /\
  messages (chat s') = messages (chat s) ++ [user_turn fs user_input].
Proof.
  intros Hin Hlat. cbv zeta. unfold request_async_response.
  pose proof (begin_response_spec fs (set_is_generating (chat s) true) user_input) as H.
  assert (Hout : stdout (fst (begin_response fs (set_is_generating (chat s) true) user_input))
                 = stdout (fst (begin_response fs (chat s) user_input))).
  { unfold begin_response. destruct (extract_image_references user_input) as [u p].
    destruct (create_message_content fs user_input u p) as [c o]. reflexivity. }
  destruct (begin_response fs (set_is_generating (chat s) true) user_input) as [self1 request].
  destruct H as (Hm & _ & Hl & Hg & _). cbn [fst] in Hout.
  rewrite Hin. cbn [List.app].
  rewrite animation_waits by (cbn [remaining]; auto).
  cbn [chat]. unfold display. rewrite Hl. cbn [set_is_generating last_response].
  split.
  - destruct (last_response (chat s)) as [r|]; [destruct (truthy r)|];
      cbn [print stdout]; rewrite Hout; reflexivity.
  - destruct (last_response (chat s)) as [r|]; [destruct (truthy r)|];
      cbn [print messages]; exact Hm.
Qed.

(** C9: the code does not do what the claim says.  Nothing clears
    [last_response] when a request starts, so a request that reaches
    the ceiling is answered with the reply to the request before it;
    and a call that returns after its request was given up ends the
    watch of the next request and is shown as its answer. *)
Theorem C9_stale_reply_shown :
  (let s1 := request_async_response no_files (fresh counting) "first" 20 in
   let s2 := request_async_response no_files s1 "second" 700 in
   stdout (chat s1) = [lit "AI: one"] /\
   stdout (chat s2) = [lit "AI: one"; lit "AI: one"] /\
   is_generating (chat s2) = true) /\
  (let s1 := request_async_response no_files (fresh counting) "first" 700 in
   let s2 := request_async_response no_files s1 "second" 300 in
   stdout (chat s1) = [no_response_line] /\
   stdout (chat s2) = [no_response_line; lit "AI: one"] /\
   messages (chat s2)
   = [Message user (PlainText "first"); Message user (PlainText "second");
      Message assistant (PlainText "one")] /\
   messages (chat (idle 300 s2))
   = [Message user (PlainText "first"); Message user (PlainText "second");
      Message assistant (PlainText "one"); Message assistant (PlainText "two")]).
Proof. vm_compute. repeat split; reflexivity. Qed.

(** On the first request of a session the ceiling is reported as the
    claim says. *)
Example first_timeout_reported :
  stdout (chat (request_async_response no_files (fresh obliging) "first" 601))
  = [no_response_line].
Proof. vm_compute. reflexivity. Qed.

(** ** The history file round trip *)

Module JsonFacts.

Import Json.

Section JsonInd.
Variable P : json -> Prop.
Hypothesis HNull : P JNull.
Hypothesis HBool : forall b, P (JBool b).
Hypothesis HInt : forall z, P (JInt z).
Hypothesis HStr : forall s, P (JStr s).
Hypothesis HArr : forall items, Forall P items -> P (JArr items).
Hypothesis HObj : forall pairs, Forall (fun kv => P (snd kv)) pairs -> P (JObj pairs).

Fixpoint json_induction (v : json) : P v :=
  match v with
  | JNull => HNull
  | JBool b => HBool b
  | JInt z => HInt z
  | JStr s => HStr s
  | JArr items =>
      HArr items
        ((fix all (l : list json) : Forall P l :=
            match l with
            | [] => Forall_nil P
            | y :: l' => Forall_cons y (json_induction y) (all l')
            end) items)
  | JObj pairs =>
      HObj pairs
        ((fix all (l : list (str * json)) : Forall (fun kv => P (snd kv)) l :=
            match l with
            | [] => Forall_nil _
            | kv :: l' => Forall_cons kv (json_induction (snd kv)) (all l')
            end) pairs)
  end.
End JsonInd.

Lemma scanstring_escape c tail :
  scanstring (escape_char c ++ tail)
  = bind (scanstring tail) (fun x => let '(t, r') := x in Ok (c :: t, r')).
Proof.
  destruct c as [[] [] [] [] [] [] [] []]; reflexivity.
Qed.

Lemma scanstring_encoded s rest :
  scanstring (flat_map escape_char s ++ DQ :: rest) = Ok (s, rest).
Proof.
  induction s as [|c s IH]; [reflexivity|].
  cbn [flat_map]. rewrite <- app_assoc, scanstring_escape, IH. reflexivity.
Qed.

Lemma skip_ws_indent n tail : skip_ws (newline_indent n ++ tail) = skip_ws tail.
Proof.
  unfold newline_indent. cbn [app skip_ws]. change (is_ws LF) with true. cbv iota.
  induction (2 * n) as [|k IH]; [reflexivity|].
  cbn [repeat app skip_ws]. change (is_ws " "%char) with true. cbv iota. exact IH.
Qed.

Lemma skip_ws_stop c t : is_ws c = false -> skip_ws (c :: t) = c :: t.
Proof. intros H. cbn [skip_ws]. rewrite H. reflexivity. Qed.

Lemma encode_string_head s : exists t, encode_string s = DQ :: t.
Proof. unfold encode_string. eauto. Qed.

Lemma encode_head level v :
  plain v -> exists c t, encode level v = c :: t /\ opener c.
Proof.
  destruct v as [|[]|z|s|[|x xs]|[|[k x] xs]]; cbn [plain encode]; intros H;
    try destruct H; do 2 eexists; (split; [reflexivity | repeat split]).
Qed.

Lemma scan_once_array fuel r :
  scan_once (S fuel) ("["%char :: r)
  = match skip_ws r with
    | d :: r2 =>
        if Ascii.eqb d "]"%char then Ok (JArr [], r2)
        else bind (array_items fuel [] (skip_ws r))
                  (fun x => let '(items, r') := x in Ok (JArr items, r'))
    | [] => Err JSONDecodeError
    end.
Proof. reflexivity. Qed.

Lemma scan_once_object fuel r :
  scan_once (S fuel) ("{"%char :: r)
  = match skip_ws r with
    | d :: r2 =>
        if Ascii.eqb d "}"%char then Ok (JObj [], r2)
        else if Ascii.eqb d DQ then
          bind (object_items fuel [] r2)
               (fun x => let '(pairs, r') := x in Ok (JObj (dict_of_pairs pairs), r'))
        else Err JSONDecodeError
    | [] => Err JSONDecodeError
    end.
Proof. reflexivity. Qed.

Lemma array_items_step fuel acc s :
  array_items (S fuel) acc s
  = bind (scan_once fuel s)
      (fun x => let '(v, r) := x in
         match skip_ws r with
         | d :: r2 =>
             if Ascii.eqb d "]"%char then Ok (acc ++ [v], r2)
             else if Ascii.eqb d ","%char then array_items fuel (acc ++ [v]) (skip_ws r2)
             else Err JSONDecodeError
         | [] => Err JSONDecodeError
         end).
Proof. reflexivity. Qed.

Lemma object_items_step fuel acc s :
  object_items (S fuel) acc s
  = bind (scanstring s)
      (fun x => let '(k, r) := x in
         match skip_ws r with
         | c :: r1 =>
             if Ascii.eqb c ":"%char then
               bind (scan_once fuel (skip_ws r1))
                 (fun y => let '(v, r2) := y in
                    match skip_ws r2 with
                    | d :: r3 =>
                        if Ascii.eqb d "}"%char then Ok (acc ++ [(k, v)], r3)
                        else if Ascii.eqb d ","%char then
                          match skip_ws r3 with
                          | q :: r4 =>
                              if Ascii.eqb q DQ then object_items fuel (acc ++ [(k, v)]) r4
                              else Err JSONDecodeError
                          | [] => Err JSONDecodeError
                          end
                        else Err JSONDecodeError
                    | [] => Err JSONDecodeError
                    end)
             else Err JSONDecodeError
         | [] => Err JSONDecodeError
         end).
Proof. reflexivity. Qed.

Lemma comma_not_ws_then tail :
  skip_ws ("," ++ tail) = ","%char :: tail.
Proof. reflexivity. Qed.

Lemma array_items_encoded level xs :
  forall x acc fuel rest,
    Forall reads_back (x :: xs) ->
    fold_right (fun y a => plain y /\ a) True (x :: xs) ->
    list_sum (map (fun y => S (json_size y)) (x :: xs)) <= fuel ->
    array_items fuel acc
      (encode (S level) x
       ++ flat_map (fun y => ("," ++ newline_indent (S level)) ++ y)
                   (map (encode (S level)) xs)
       ++ newline_indent level ++ "]" ++ rest)
    = Ok (acc ++ x :: xs, rest).
Proof.
  induction xs as [|y ys IH]; intros x acc fuel rest HF Hp Hfuel.
  - inversion HF as [|? ? Hx _]; subst. destruct Hp as [Hpx _].
    cbn [map list_sum fold_right] in Hfuel. destruct fuel as [|fuel]; [lia|].
    rewrite array_items_step, (Hx Hpx) by lia. cbn [bind map flat_map app].
    rewrite skip_ws_indent. reflexivity.
  - inversion HF as [|? ? Hx HF']; subst. destruct Hp as [Hpx Hp'].
    cbn [map list_sum fold_right] in Hfuel. destruct fuel as [|fuel]; [lia|].
    rewrite array_items_step, (Hx Hpx) by lia. cbn [bind map flat_map].
    rewrite <- !app_assoc. rewrite comma_not_ws_then.
    change (Ascii.eqb ","%char "]"%char) with false.
    change (Ascii.eqb ","%char ","%char) with true. cbv iota.
    rewrite skip_ws_indent.
    destruct (encode_head (S level) y (proj1 Hp')) as (c & t & E & Hc & _).
    rewrite E. cbn [app]. rewrite (skip_ws_stop c _ Hc).
    change (c :: t ++ ?z) with ((c :: t) ++ z). rewrite <- E.
    rewrite (IH y (acc ++ [x]) fuel rest HF' Hp') by (cbn [map list_sum fold_right] in *; lia).
    rewrite <- app_assoc. reflexivity.
Qed.

Lemma colon_then tail :
  skip_ws (": " ++ tail) = ":"%char :: " "%char :: tail.
Proof. reflexivity. Qed.

Lemma skip_ws_space tail : skip_ws (" "%char :: tail) = skip_ws tail.
Proof. reflexivity. Qed.

Lemma skip_ws_encode level v tail :
  plain v -> skip_ws (encode level v ++ tail) = encode level v ++ tail.
Proof.
  intros H. destruct (encode_head level v H) as (c & t & E & Hc & _).
  rewrite E. apply skip_ws_stop, Hc.
Qed.

Lemma object_items_encoded level xs :
  forall k x acc fuel rest,
    Forall (fun kv => reads_back (snd kv)) ((k, x) :: xs) ->
    fold_right (fun kv a => plain (snd kv) /\ a) True ((k, x) :: xs) ->
    list_sum (map (fun kv => S (json_size (snd kv))) ((k, x) :: xs)) <= fuel ->
    object_items fuel acc
      (flat_map escape_char k ++ [DQ] ++ ": " ++ encode (S level) x
       ++ flat_map (fun y => ("," ++ newline_indent (S level)) ++ y)
                   (map (fun kv => encode_string (fst kv) ++ ": "
                                   ++ encode (S level) (snd kv)) xs)
       ++ newline_indent level ++ "}" ++ rest)
    = Ok (acc ++ (k, x) :: xs, rest).
Proof.
  induction xs as [|[k' y] ys IH]; intros k x acc fuel rest HF Hp Hfuel.
  - inversion HF as [|? ? Hx _]; subst. destruct Hp as [Hpx _]. cbn [snd] in *.
    cbn [map list_sum fold_right snd] in Hfuel. destruct fuel as [|fuel]; [lia|].
    rewrite object_items_step. cbn [List.app]. rewrite scanstring_encoded. cbn [bind].
    rewrite colon_then. change (Ascii.eqb ":"%char ":"%char) with true. cbv iota.
    rewrite skip_ws_space, skip_ws_encode by exact Hpx.
    rewrite (Hx Hpx) by lia. cbn [bind map flat_map List.app].
    rewrite skip_ws_indent. reflexivity.
  - inversion HF as [|? ? Hx HF']; subst. destruct Hp as [Hpx Hp']. cbn [snd] in *.
    cbn [map list_sum fold_right snd] in Hfuel. destruct fuel as [|fuel]; [lia|].
    rewrite object_items_step. cbn [List.app]. rewrite scanstring_encoded. cbn [bind].
    rewrite colon_then. change (Ascii.eqb ":"%char ":"%char) with true. cbv iota.
    rewrite skip_ws_space, skip_ws_encode by exact Hpx.
    rewrite (Hx Hpx) by lia. cbn [bind map flat_map fst snd].
    rewrite <- !app_assoc. rewrite comma_not_ws_then.
    change (Ascii.eqb ","%char "}"%char) with false.
    change (Ascii.eqb ","%char ","%char) with true. cbv iota.
    rewrite skip_ws_indent. unfold encode_string at 1. cbn [List.app].
    rewrite (skip_ws_stop DQ) by reflexivity.
    rewrite Ascii.eqb_refl.
    rewrite <- !app_assoc.
    rewrite (IH k' y (acc ++ [(k, x)]) fuel rest HF' Hp')
      by (cbn [map list_sum fold_right snd] in *; lia).
    rewrite <- app_assoc. reflexivity.
Qed.

Lemma dict_set_fresh d k v :
  ~ In k (map fst d) -> dict_set d k v = d ++ [(k, v)].
Proof.
  induction d as [|[k' v'] d IH]; intros H; [reflexivity|].
  cbn [dict_set]. destruct (str_eqb k' k) eqn:E.
  - apply str_eqb_eq in E. subst. exfalso. apply H. left. reflexivity.
  - rewrite IH; [reflexivity|]. intros Hin. apply H. right. exact Hin.
Qed.

Lemma dict_of_pairs_distinct pairs :
  NoDup (map fst pairs) -> dict_of_pairs pairs = pairs.
Proof.
  unfold dict_of_pairs.
  assert (G : forall d, NoDup (map fst (d ++ pairs)) ->
                        fold_left (fun d kv => dict_set d (fst kv) (snd kv)) pairs d
                        = d ++ pairs).
  { induction pairs as [|[k v] pairs IH]; intros d H; cbn [fold_left fst snd].
    - rewrite app_nil_r. reflexivity.
    - rewrite dict_set_fresh.
      + rewrite IH; rewrite <- app_assoc; [reflexivity | exact H].
      + rewrite map_app in H. cbn [map fst] in H. apply NoDup_remove_2 in H.
        intros Hin. apply H. apply in_or_app. left. exact Hin. }
  intros H. apply (G []). exact H.
Qed.

(** The scanner reads back what the encoder writes. *)
Lemma scan_encode v : reads_back v.
Proof.
  induction v as [|b|z|s|items IH|pairs IH] using json_induction;
    intros Hp fuel level rest Hfuel;
    (destruct fuel as [|fuel]; [cbn [json_size] in Hfuel; lia|]).
  - reflexivity.
  - destruct b; reflexivity.
  - destruct Hp.
  - cbn [encode]. unfold encode_string. cbn [List.app scan_once].
    rewrite Ascii.eqb_refl, <- app_assoc. cbn [List.app].
    rewrite scanstring_encoded. reflexivity.
  - destruct items as [|x xs]; [reflexivity|].
    cbn [encode]. rewrite <- !app_assoc.
    change ("[" ++ ?t) with ("["%char :: t).
    rewrite scan_once_array, skip_ws_indent.
    cbn [plain] in Hp. cbn [map join]. rewrite <- !app_assoc.
    rewrite skip_ws_encode by apply Hp.
    destruct (encode_head (S level) x (proj1 Hp)) as (c & t & E & _ & Hc & _).
    rewrite E at 1. cbn [List.app]. rewrite Hc.
    rewrite (array_items_encoded level xs x [] fuel rest IH Hp)
      by (cbn [json_size] in Hfuel; lia).
    reflexivity.
  - destruct pairs as [|[k x] xs]; [reflexivity|].
    cbn [encode]. rewrite <- !app_assoc.
    change ("{" ++ ?t) with ("{"%char :: t).
    rewrite scan_once_object, skip_ws_indent.
    cbn [plain] in Hp. destruct Hp as [Hnd Hp]. cbn [map join fst snd].
    unfold encode_string at 1. rewrite <- !app_assoc. cbn [List.app].
    rewrite (skip_ws_stop DQ) by reflexivity.
    change (Ascii.eqb DQ "}"%char) with false. rewrite Ascii.eqb_refl. cbv iota.
    pose proof (object_items_encoded level xs k x [] fuel rest IH Hp) as H.
    rewrite <- !app_assoc, H by (cbn [json_size] in Hfuel; lia).
    cbn [bind]. rewrite dict_of_pairs_distinct by exact Hnd. reflexivity.
Qed.

Lemma separated_length {A} (size : A -> nat) (chunk : A -> list ascii) sep (xs : list A) :
  Forall (fun x => size x <= List.length (chunk x)) xs ->
  1 <= List.length sep ->
  list_sum (map (fun x => S (size x)) xs)
  <= List.length (flat_map (fun y => sep ++ y) (map chunk xs)).
Proof.
  intros H Hsep. induction H as [|x xs Hx _ IH]; [apply Nat.le_refl|].
  cbn [map flat_map list_sum fold_right]. rewrite !length_app.
  unfold list_sum in IH. lia.
Qed.

Lemma newline_indent_length n : 1 <= List.length (newline_indent n).
Proof. unfold newline_indent. cbn [List.length]. lia. Qed.

(** The fuel that [loads] gives the scanner is enough for what the
    encoder writes. *)
Lemma encode_length v : forall level, json_size v <= List.length (encode level v).
Proof.
  induction v as [|b|z|s|items IH|pairs IH] using json_induction; intros level.
  - cbn. lia.
  - destruct b; cbn; lia.
  - cbn [json_size encode]. unfold encode_int.
    destruct (NilZero.string_of_int (Z.to_int z)) eqn:E; [|cbn; lia].
    exfalso. destruct (Z.to_int z) as [d|d]; cbn in E.
    + destruct d; cbn in E; discriminate.
    + discriminate.
  - cbn [json_size encode]. unfold encode_string. cbn [List.length]. lia.
  - destruct items as [|x xs]; [cbn; lia|].
    cbn [json_size encode join map list_sum fold_right]. rewrite !length_app.
    inversion IH as [|? ? Hx Hxs]; subst.
    pose proof (separated_length json_size (encode (S level))
                  ("," ++ newline_indent (S level)) xs) as H.
    unfold list_sum in H. specialize (Hx (S level)).
    assert (Hxs' : Forall (fun y => json_size y <= List.length (encode (S level) y)) xs).
    { eapply Forall_impl; [|exact Hxs]. intros y Hy. apply Hy. }
    specialize (H Hxs'). rewrite length_app in H.
    pose proof (newline_indent_length (S level)).
    pose proof (newline_indent_length level).
    cbn [List.length lit list_ascii_of_string] in *. lia.
  - destruct pairs as [|[k x] xs]; [cbn; lia|].
    cbn [json_size encode join map list_sum fold_right fst snd]. rewrite !length_app.
    inversion IH as [|? ? Hx Hxs]; subst. cbn [snd] in Hx.
    pose proof (separated_length (fun kv => json_size (snd kv))
                  (fun kv => encode_string (fst kv) ++ ": " ++ encode (S level) (snd kv))
                  ("," ++ newline_indent (S level)) xs) as H.
    unfold list_sum in H. specialize (Hx (S level)).
    assert (Hxs' : Forall (fun kv : str * json =>
                             json_size (snd kv)
                             <= List.length (encode_string (fst kv) ++ ": "
                                             ++ encode (S level) (snd kv))) xs).
    { eapply Forall_impl; [|exact Hxs]. intros kv Hy. rewrite !length_app.
      specialize (Hy (S level)). lia. }
    specialize (H Hxs'). rewrite length_app in H.
    pose proof (newline_indent_length (S level)).
    pose proof (newline_indent_length level).
    cbn [List.length lit list_ascii_of_string] in *. lia.
Qed.

(** [json.loads(json.dumps(v, indent=2))] gives [v] back. *)
Lemma loads_dumps v : plain v -> loads (dumps v) = Ok v.
Proof.
  intros Hp. unfold loads, dumps.
  rewrite <- (app_nil_r (encode 0 v)) at 2.
  rewrite skip_ws_encode by exact Hp.
  rewrite (scan_encode v Hp).
  - reflexivity.
  - pose proof (encode_length v 0). lia.
Qed.

End JsonFacts.

Module HistoryFacts.

Import Json JsonFacts History.

Lemma keys_distinct_2 (a b : str) : a <> b -> NoDup [a; b].
Proof.
  intros H. constructor; [intros [E|[]]; congruence|].
  constructor; [intros []|constructor].
Qed.

Lemma part_plain p : plain (part_to_json p).
Proof.
  destruct p; cbn [part_to_json plain map fst snd fold_right].
  - repeat split. apply keys_distinct_2. discriminate.
  - repeat split; [apply keys_distinct_2; discriminate|].
    constructor; [intros []|constructor].
Qed.

Lemma content_plain c : plain (content_to_json c).
Proof.
  destruct c as [s|ps]; [exact I|].
  cbn [content_to_json plain]. induction ps as [|p ps IH]; [exact I|].
  cbn [map fold_right]. split; [apply part_plain | exact IH].
Qed.

Lemma message_plain m : plain (message_to_json m).
Proof.
  destruct m as [r c]. cbn [message_to_json plain map fst snd fold_right msg_role msg_content].
  repeat split.
  - apply keys_distinct_2. discriminate.
  - destruct r; exact I.
  - apply content_plain.
Qed.

Lemma history_plain h : plain (history_to_json h).
Proof.
  cbn [history_to_json plain]. induction h as [|m h IH]; [exact I|].
  cbn [map fold_right]. split; [apply message_plain | exact IH].
Qed.

Lemma json_to_part_inverse p : json_to_part (part_to_json p) = Some p.
Proof. destruct p; reflexivity. Qed.

Lemma sequence_map_inverse {A} (to : A -> json) (from : json -> option A) :
  (forall a, from (to a) = Some a) ->
  forall l, sequence (map from (map to l)) = Some l.
Proof.
  intros H. induction l as [|a l IH]; [reflexivity|].
  cbn [map sequence]. rewrite H, IH. reflexivity.
Qed.

Lemma json_to_content_inverse c : json_to_content (content_to_json c) = Some c.
Proof.
  destruct c as [s|ps]; [reflexivity|].
  cbn [content_to_json json_to_content].
  rewrite (sequence_map_inverse part_to_json json_to_part json_to_part_inverse).
  reflexivity.
Qed.

Lemma json_to_message_inverse m : json_to_message (message_to_json m) = Some m.
Proof.
  destruct m as [r c].
  change (json_to_message (message_to_json (Message r c)))
    with (match json_to_role (role_to_json r), json_to_content (content_to_json c) with
          | Some r', Some c' => Some (Message r' c')
          | _, _ => None
          end).
  rewrite json_to_content_inverse. destruct r; reflexivity.
Qed.

Lemma json_to_history_inverse h : json_to_history (history_to_json h) = Some h.
Proof.
  apply (sequence_map_inverse message_to_json json_to_message json_to_message_inverse).
Qed.

(** Loading what was saved gives the saved history back. *)
Lemma load_save h :
  load_history (save_history h) = Some (h, [lit "Previous chat history loaded."]).
Proof.
  unfold load_history, save_history.
  rewrite (loads_dumps _ (history_plain h)), json_to_history_inverse. reflexivity.
Qed.

End HistoryFacts.

Import HistoryFacts.

(** C8: saving a history and loading the file gives the same messages
    in the same order, whatever mix of plain and structured contents
    they hold. *)
Theorem C8_history_round_trip (h : list message) :
  History.load_history (History.save_history h)
  = Some (h, [lit "Previous chat history loaded."]).
Proof. apply load_save. Qed.

Example round_trip_document :
  History.save_history
    [Message user (Structured [TextPart "see"; ImagePart "http://x.test/a.png"]);
     Message assistant (PlainText ("a " ++ [Json.DQ] ++ "cat" ++ [Json.DQ; LF]))]
  = Some ("[" ++ [LF]
          ++ "  {" ++ [LF]
          ++ "    " ++ [Json.DQ] ++ "role" ++ [Json.DQ] ++ ": " ++ [Json.DQ] ++ "user" ++ [Json.DQ] ++ "," ++ [LF]
          ++ "    " ++ [Json.DQ] ++ "content" ++ [Json.DQ] ++ ": [" ++ [LF]
          ++ "      {" ++ [LF]
          ++ "        " ++ [Json.DQ] ++ "type" ++ [Json.DQ] ++ ": " ++ [Json.DQ] ++ "text" ++ [Json.DQ] ++ "," ++ [LF]
          ++ "        " ++ [Json.DQ] ++ "text" ++ [Json.DQ] ++ ": " ++ [Json.DQ] ++ "see" ++ [Json.DQ] ++ [LF]
          ++ "      }," ++ [LF]
          ++ "      {" ++ [LF]
          ++ "        " ++ [Json.DQ] ++ "type" ++ [Json.DQ] ++ ": " ++ [Json.DQ] ++ "image_url" ++ [Json.DQ] ++ "," ++ [LF]
          ++ "        " ++ [Json.DQ] ++ "image_url" ++ [Json.DQ] ++ ": {" ++ [LF]
          ++ "          " ++ [Json.DQ] ++ "url" ++ [Json.DQ] ++ ": " ++ [Json.DQ] ++ "http://x.test/a.png" ++ [Json.DQ] ++ [LF]
          ++ "        }" ++ [LF]
          ++ "      }" ++ [LF]
          ++ "    ]" ++ [LF]
          ++ "  }," ++ [LF]
          ++ "  {" ++ [LF]
          ++ "    " ++ [Json.DQ] ++ "role" ++ [Json.DQ] ++ ": " ++ [Json.DQ] ++ "assistant" ++ [Json.DQ] ++ "," ++ [LF]
          ++ "    " ++ [Json.DQ] ++ "content" ++ [Json.DQ] ++ ": " ++ [Json.DQ] ++ "a " ++ [Json.BS; Json.DQ] ++ "cat" ++ [Json.BS; Json.DQ; Json.BS] ++ "n" ++ [Json.DQ] ++ [LF]
          ++ "  }" ++ [LF]
          ++ "]").
Proof. reflexivity. Qed.

(** C2, as stated, fails: the user's turn is appended in memory only.
    The file is not written before the call, and when the call raises
    it is not written at all. *)
Lemma C2_counterexample :
  let self0 := chat (fresh unreachable) in
  let self1 := fst (begin_response no_files self0 "hello") in
  let self2 := get_ai_response no_files self0 "hello" in
  messages self1 = [Message user (PlainText "hello")] /\
  history_file self1 = None /\
  messages self2 = [Message user (PlainText "hello")] /\
  history_file self2 = None /\
  History.load_history (history_file self2) = Some ([], []).
Proof. cbv zeta. repeat split; reflexivity. Qed.

(** C2, amended: the file is written by [save_history] only, which
    [get_ai_response] calls once the reply is in the history, and which
    the [new] command calls after it empties the history.  For a
    request made with no other call in flight: the user's turn is in
    memory as soon as the thread is started, and the file is untouched
    as long as the call has not returned, during the watch and after
    it; once the call has returned with a reply the file holds the
    whole history, the user's turn and the reply included; once it has
    failed the file is as it was before the request. *)
Theorem C2_saved_after_reply (fs : FileSystem) (s : Session) (user_input : str)
    (latency : nat) :
  (in_flight s = [] ->
   let turn := user_turn fs user_input in
   (forall elapsed, elapsed < latency ->
      let s1 := idle elapsed (started fs s user_input latency) in
      messages (chat s1) = messages (chat s) ++ [turn] /\
      history_file (chat s1) = history_file (chat s)) /\
   (forall wait, ceiling + wait < latency ->
      let s1 := idle wait (request_async_response fs s user_input latency) in
      messages (chat s1) = messages (chat s) ++ [turn] /\
      history_file (chat s1) = history_file (chat s)) /\
   (forall wait, latency <= ceiling + wait ->
      let s2 := idle wait (request_async_response fs s user_input latency) in
      match client (chat s) (snd (begin_response fs (chat s) user_input)) with
      | Reply answer =>
          messages (chat s2)
          = messages (chat s) ++ [turn; Message assistant (PlainText answer)] /\
          history_file (chat s2) = History.save_history (messages (chat s2)) /\
          History.load_history (history_file (chat s2))
          = Some (messages (chat s2), [lit "Previous chat history loaded."])
      | Raised _ =>
          messages (chat s2) = messages (chat s) ++ [turn] /\
          history_file (chat s2) = history_file (chat s)
      end)) /\
  messages (new_chat (chat s)) = [] /\
  history_file (new_chat (chat s)) = History.save_history [].
Proof.
  split; [|split; reflexivity].
  intros Hin. cbv zeta.
  pose proof (begin_response_spec fs (chat s) user_input) as Hb.
  split; [|split].
  - intros elapsed Hlt. rewrite (started_alone _ _ _ _ Hin).
    rewrite idle_waits by (cbn [remaining]; exact Hlt).
    cbn [chat set_is_generating messages history_file].
    destruct (begin_response fs (chat s) user_input) as [self1 request].
    destruct Hb as (Hm & Hf & _). cbn [fst]. auto.
  - intros wait Hw.
    destruct (request_alone fs s user_input latency wait Hin) as [_ H].
    destruct (H Hw) as (_ & _ & Hm & Hf & _). rewrite Hm, Hf.
    destruct (begin_response fs (chat s) user_input) as [self1 request].
    destruct Hb as (Hm1 & Hf1 & _). cbn [fst]. auto.
  - intros wait Hw.
    destruct (request_alone fs s user_input latency wait Hin) as [H _].
    destruct (H Hw) as (_ & _ & Hm & Hf & _). rewrite Hf, Hm.
    destruct (begin_response fs (chat s) user_input) as [self1 request].
    destruct Hb as (Hm1 & Hf1 & _). cbn [fst snd].
    destruct (client (chat s) request) as [answer|e]; cbn.
    + rewrite Hm1, <- app_assoc. cbn [List.app].
      split; [reflexivity|]. split; [reflexivity|]. apply load_save.
    + auto.
Qed.

(** C2 on a call that fails after 70 seconds: the file, which held an
    earlier exchange, is the same 30 seconds into the watch, 5 seconds
    after the watch was given up, and after the failure, and it never
    holds the user's turn; and on a call that is answered in two
    seconds, after which the file loads as the whole history. *)
Lemma C2_saved_after_reply_witness :
  let earlier := [Message user (PlainText "hi"); Message assistant (PlainText "I see.")] in
  let session reply :=
    {| chat := {| client := reply; messages := earlier;
                  history_file := History.save_history earlier;
                  is_generating := false; last_response := None; stdout := [] |};
       in_flight := [] |} in
  let turn := Message user (PlainText "hello") in
  (let s1 := idle 300 (started no_files (session unreachable) "hello" 700) in
   messages (chat s1) = earlier ++ [turn] /\
   history_file (chat s1) = History.save_history earlier) /\
  (let s1 := idle 50 (request_async_response no_files (session unreachable) "hello" 700) in
   messages (chat s1) = earlier ++ [turn] /\
   history_file (chat s1) = History.save_history earlier) /\
  (let s2 := idle 150 (request_async_response no_files (session unreachable) "hello" 700) in
   messages (chat s2) = earlier ++ [turn] /\
   history_file (chat s2) = History.save_history earlier) /\
  (let s2 := idle 0 (request_async_response no_files (session obliging) "hello" 20) in
   messages (chat s2) = earlier ++ [turn; Message assistant (PlainText "I see.")] /\
   history_file (chat s2) = History.save_history (messages (chat s2)) /\
   History.load_history (history_file (chat s2))
   = Some (messages (chat s2), [lit "Previous chat history loaded."])).
Proof.
  cbv zeta.
  pose proof (proj1 (C2_saved_after_reply no_files
                       {| chat := {| client := unreachable;
                                     messages := [Message user (PlainText "hi");
                                                  Message assistant (PlainText "I see.")];
                                     history_file :=
                                       History.save_history
                                         [Message user (PlainText "hi");
                                          Message assistant (PlainText "I see.")];
                                     is_generating := false; last_response := None;
                                     stdout := [] |};
                          in_flight := [] |} "hello" 700) eq_refl) as (H1 & H2 & H3).
  pose proof (proj1 (C2_saved_after_reply no_files
                       {| chat := {| client := obliging;
                                     messages := [Message user (PlainText "hi");
                                                  Message assistant (PlainText "I see.")];
                                     history_file :=
                                       History.save_history
                                         [Message user (PlainText "hi");
                                          Message assistant (PlainText "I see.")];
                                     is_generating := false; last_response := None;
                                     stdout := [] |};
                          in_flight := [] |} "hello" 20) eq_refl) as (_ & _ & H4).
  split; [apply (H1 300); lia|].
  split; [apply (H2 50); unfold ceiling; lia|].
  split; [apply (H3 150); unfold ceiling; lia|].
  apply (H4 0); unfold ceiling; lia.
Defined.

(** * Further properties *)

(** ** What the removal of the markers leaves *)

Lemma closing_survives s :
  forall m post,
    Re.sub_empty s = m ++ "}}" ++ post -> ~ In LF m ->
    exists m2 post2, s = m2 ++ "}}" ++ post2 /\ ~ In LF m2.
Proof.
  induction s as [|d s' IH]; intros m post H HLF.
  - exfalso. destruct m; discriminate.
  - rewrite sub_empty_cons in H.
    destruct (Re.marker (d :: s')) as [[m' r']|] eqn:E.
    + apply marker_spec in E. destruct E as (E & HLF' & _).
      exists ("{{" ++ m'), r'. split; [rewrite E, <- app_assoc; reflexivity|].
      intros [F|[F|F]]; [discriminate F | discriminate F | contradiction].
    + destruct m as [|e m1].
      * cbn [List.app] in H. change ("}}" ++ post) with ("}"%char :: "}"%char :: post) in H.
        inversion H as [[Hd Hs]]. clear H.
        destruct s' as [|x t]; [discriminate|].
        rewrite sub_empty_cons in Hs.
        destruct (Re.marker (x :: t)) as [[m' r']|] eqn:E'.
        -- apply marker_spec in E'. destruct E' as (E' & HLF' & _).
           exists ("}{{" ++ m'), r'. split; [rewrite E', <- app_assoc; reflexivity|].
           intros [F|[F|[F|F]]]; [discriminate F | discriminate F | discriminate F | contradiction].
        -- inversion Hs; subst. exists [], t. split; [reflexivity | intros []].
      * cbn [List.app] in H. inversion H as [[Hd Hs]]. clear H. subst e.
        destruct (IH m1 post Hs) as (m2 & post2 & -> & HLF2).
        { intros F. apply HLF. right. exact F. }
        exists (d :: m2), post2. split; [reflexivity|].
        intros [F|F]; [apply HLF; left; exact F | contradiction].
Qed.

(** Removing the markers leaves no marker behind, whatever braces the
    text holds. *)
Lemma no_marker_left text : ~ has_marker (Re.sub_empty text).
Proof.
  remember (List.length text) as n eqn:Hn.
  revert text Hn. induction n as [n IH] using lt_wf_ind. intros text Hn.
  destruct text as [|c r]; [apply has_marker_nil|].
  rewrite sub_empty_cons.
  destruct (Re.marker (c :: r)) as [[m r']|] eqn:E.
  - eapply IH; [|reflexivity]. subst n. apply (Re.marker_shorter _ _ _ E).
  - rewrite has_marker_cons. intros [Hs|Hh].
    + assert (Hc : starts_marker (c :: r)); [|apply marker_starts in Hc; congruence].
      destruct Hs as (m & post & Hs & HLF).
      change ("{{" ++ m ++ "}}" ++ post) with ("{"%char :: "{"%char :: m ++ "}}" ++ post) in Hs.
      inversion Hs as [[Hc Hr]]. clear Hs.
      destruct r as [|x t]; [discriminate|].
      rewrite sub_empty_cons in Hr.
      destruct (Re.marker (x :: t)) as [[m' r'']|] eqn:E'.
      * apply marker_spec in E'. destruct E' as (E' & HLF' & _). rewrite E'.
        exists ("{" ++ m'), r''. split; [reflexivity|].
        intros [F|F]; [discriminate F | contradiction].
      * inversion Hr as [[Hx Ht]]. subst x.
        destruct (closing_survives t m post Ht HLF) as (m2 & post2 & -> & HLF2).
        exists m2, post2. split; [reflexivity | exact HLF2].
    + revert Hh. eapply IH; [|reflexivity]. subst n. simpl. lia.
Qed.

Lemma lstrip_suffix s : exists a, s = a ++ lstrip s.
Proof.
  induction s as [|c s [a IH]]; [exists []; reflexivity|].
  cbn [lstrip]. destruct (isspace c).
  - exists (c :: a). cbn [List.app]. congruence.
  - exists []. reflexivity.
Qed.

Lemma rstrip_prefix s : exists b, s = rstrip s ++ b.
Proof.
  unfold rstrip. destruct (lstrip_suffix (rev s)) as [a H].
  exists (rev a). rewrite <- rev_app_distr, <- H, rev_involutive. reflexivity.
Qed.

Lemma strip_infix s : exists a b, s = a ++ strip s ++ b.
Proof.
  unfold strip. destruct (lstrip_suffix s) as [a Ha].
  destruct (rstrip_prefix (lstrip s)) as [b Hb].
  exists a, b. rewrite <- Hb. exact Ha.
Qed.

Lemma has_marker_infix a s b : has_marker s -> has_marker (a ++ s ++ b).
Proof.
  intros (pre & rest & -> & (m & post & -> & HLF)).
  exists (a ++ pre), ("{{" ++ m ++ "}}" ++ post ++ b). split.
  - rewrite <- !app_assoc. reflexivity.
  - exists m, (post ++ b). split; [reflexivity | exact HLF].
Qed.

Lemma no_marker_in_clean_text text : ~ has_marker (strip (Re.sub_empty text)).
Proof.
  intros H. destruct (strip_infix (Re.sub_empty text)) as (a & b & E).
  apply (no_marker_left text). rewrite E. apply has_marker_infix, H.
Qed.

Lemma lstrip_head s c t : lstrip s = c :: t -> isspace c = false.
Proof.
  induction s as [|d s IH]; [discriminate|].
  cbn [lstrip]. destruct (isspace d) eqn:E; [exact IH|].
  intros H. inversion H; subst. exact E.
Qed.

Lemma strip_ends s c t :
  strip s = c :: t -> isspace c = false /\ isspace (last (c :: t) c) = false.
Proof.
  intros H. split.
  - destruct (rstrip_prefix (lstrip s)) as [b Hb]. fold (strip s) in Hb. rewrite H in Hb.
    apply (lstrip_head s c (t ++ b)). exact Hb.
  - unfold strip, rstrip in H.
    destruct (lstrip (rev (lstrip s))) as [|x u] eqn:E; [discriminate|].
    apply lstrip_head in E. rewrite <- H. cbn [rev]. rewrite last_last. exact E.
Qed.

(** The text part of a composed content: present exactly when the
    cleaned text is not empty, and then the first part. *)
Lemma text_part_is_clean_text fs text urls paths parts t :
  fst (create_message_content fs text urls paths) = Structured parts ->
  In (TextPart t) parts ->
  t = strip (Re.sub_empty text) /\ t <> [].
Proof.
  rewrite create_message_content_parts.
  destruct (negb (truthy urls) && negb (truthy paths)); [discriminate|].
  intros H Hin. inversion H; subst; clear H.
  apply in_app_or in Hin. destruct Hin as [Hin|Hin].
  - destruct (strip (Re.sub_empty text)) as [|c u] eqn:E; [destruct Hin|].
    destruct Hin as [Hin|[]]. inversion Hin; subst. split; [reflexivity | discriminate].
  - exfalso. apply in_app_or in Hin. destruct Hin as [Hin|Hin].
    + apply in_map_iff in Hin. destruct Hin as (? & ? & _). discriminate.
    + apply in_flat_map in Hin. destruct Hin as (p & _ & Hin).
      rewrite local_part_encodes in Hin.
      destruct (encodes fs p); [|destruct Hin].
      destruct (open_rb_read fs p); [destruct Hin|].
      destruct Hin as [Hin|[]]. discriminate.
Qed.

(** X1: whatever the input and the lists, a text part of the content is
    never empty, has no whitespace at its ends, and holds no marker:
    the removal leaves none behind, even where stray braces meet. *)
Theorem text_part_has_no_marker (fs : FileSystem) (text : str) (urls paths : list str)
    (parts : list part) (t : str) :
  fst (create_message_content fs text urls paths) = Structured parts ->
  In (TextPart t) parts ->
  (exists c t', t = c :: t' /\ isspace c = false /\ isspace (last t c) = false) /\
  ~ has_marker t /\
  Re.findall t = [] /\
  Re.sub_empty t = t.
Proof.
  intros H Hin. destruct (text_part_is_clean_text fs text urls paths parts t H Hin) as [-> Hne].
  pose proof (no_marker_in_clean_text text) as Hm.
  split; [|split; [exact Hm | split]].
  - destruct (strip (Re.sub_empty text)) as [|c t'] eqn:E; [contradiction|].
    exists c, t'. destruct (strip_ends _ _ _ E). auto.
  - apply findall_nil_iff, Hm.
  - apply sub_empty_no_marker, Hm.
Qed.

(** X1 on a text whose stray braces meet when the marker between them
    is removed. *)
Lemma text_part_has_no_marker_witness :
  (exists c t', lit "a }} b" = c :: t' /\ isspace c = false
                /\ isspace (last (lit "a }} b") c) = false) /\
  ~ has_marker "a }} b" /\
  Re.findall "a }} b" = [] /\
  Re.sub_empty "a }} b" = lit "a }} b".
Proof.
  apply (text_part_has_no_marker no_files "  a }{{x.png}}} b " [] [lit "x.png"]
           [TextPart "a }} b"]); [reflexivity | left; reflexivity].
Defined.

(** ** Local images and what is printed about them *)

Lemma b64encode_nil data : b64encode data = [] <-> data = [].
Proof.
  split; [|intros ->; reflexivity].
  destruct data as [|a [|b [|c rest]]]; [reflexivity | discriminate..].
Qed.

Lemma fold_local_printed fs paths content out :
  snd (fold_left (add_local_image fs) paths (content, out))
  = out ++ flat_map (fun p => snd (add_local_image fs ([], []) p)) paths.
Proof.
  revert content out. induction paths as [|p paths IH]; intros content out;
    cbn [fold_left flat_map].
  - rewrite app_nil_r. reflexivity.
  - rewrite add_local_image_app, IH, <- app_assoc. reflexivity.
Qed.

Lemma local_part_image fs path : local_part fs path = local_image fs path.
Proof.
  unfold local_part, local_image, add_local_image, encode_image_to_base64.
  destruct (os_path_exists fs path); cbn [negb]; [|reflexivity].
  destruct (open_rb_read fs path) as [e|[|b data]]; cbn; try reflexivity.
  destruct data as [|c [|d rest]]; reflexivity.
Qed.

Lemma local_printed_complaint fs path :
  snd (add_local_image fs ([], []) path) = complaint fs path.
Proof.
  unfold complaint, add_local_image, encode_image_to_base64.
  destruct (os_path_exists fs path); cbn [negb]; [|reflexivity].
  destruct (open_rb_read fs path) as [e|data]; cbn; [reflexivity|].
  destruct (truthy (b64encode data)); reflexivity.
Qed.

(** The content and the printed lines of [create_message_content], in
    closed form. *)
Lemma composed_closed_form (fs : FileSystem) (text : str) (urls paths : list str) :
  urls <> [] \/ paths <> [] ->
  create_message_content fs text urls paths
  = (Structured
       ((if truthy (strip (Re.sub_empty text))
         then [TextPart (strip (Re.sub_empty text))] else [])
        ++ map ImagePart urls ++ flat_map (local_image fs) paths),
     flat_map (complaint fs) paths).
Proof.
  intros H.
  assert (E : negb (truthy urls) && negb (truthy paths) = false).
  { destruct urls; [destruct paths|]; cbn; try reflexivity. destruct H; congruence. }
  pose proof (create_message_content_parts fs text urls paths) as Hc. rewrite E in Hc.
  rewrite (surjective_pairing (create_message_content fs text urls paths)), Hc.
  f_equal.
  - f_equal. f_equal. f_equal. apply flat_map_ext. intros p. apply local_part_image.
  - unfold create_message_content. rewrite E.
    match goal with |- context [fold_left ?f ?l ?a] =>
      pose proof (fold_local_printed fs paths (fst a) (snd a)) as Hp;
      destruct (fold_left f l a) as [c2 out] eqn:Ef end.
    cbn [fst snd] in Hp. rewrite Ef in Hp. cbn [snd List.app] in *. rewrite Hp.
    apply flat_map_ext. intros p. apply local_printed_complaint.
Qed.

(** X2: with at least one reference, the content is the cleaned text
    if it is not empty, then the URLs in order, then one inline image
    for each local path that exists, can be read and is not empty, in
    order; a path that is missing or cannot be read costs one printed
    line and nothing else, and an empty file is dropped without a
    word. *)
Theorem content_and_complaints (fs : FileSystem) (text : str) (urls paths : list str) :
  urls <> [] \/ paths <> [] ->
  create_message_content fs text urls paths
  = (Structured
       ((if truthy (strip (Re.sub_empty text))
         then [TextPart (strip (Re.sub_empty text))] else [])
        ++ map ImagePart urls ++ flat_map (local_image fs) paths),
     flat_map (complaint fs) paths).
Proof. apply composed_closed_form. Qed.

(** X2 on a message with a URL, a picture, an empty file, a directory
    and a missing file. *)
Lemma content_and_complaints_witness :
  create_message_content sample_files "see {{http://x.test/a.png}}"
    [lit "http://x.test/a.png"]
    [lit "/img/cat.jpg"; lit "/img/empty.jpg"; lit "/img"; lit "/img/none.jpg"]
  = (Structured
       ((if truthy (strip (Re.sub_empty "see {{http://x.test/a.png}}"))
         then [TextPart (strip (Re.sub_empty "see {{http://x.test/a.png}}"))] else [])
        ++ map ImagePart [lit "http://x.test/a.png"]
        ++ flat_map (local_image sample_files)
             [lit "/img/cat.jpg"; lit "/img/empty.jpg"; lit "/img"; lit "/img/none.jpg"]),
     flat_map (complaint sample_files)
       [lit "/img/cat.jpg"; lit "/img/empty.jpg"; lit "/img"; lit "/img/none.jpg"]).
Proof.
  apply (content_and_complaints sample_files). left. discriminate.
Defined.

Example content_and_complaints_sample :
  create_message_content sample_files "see {{http://x.test/a.png}}"
    [lit "http://x.test/a.png"]
    [lit "/img/cat.jpg"; lit "/img/empty.jpg"; lit "/img"; lit "/img/none.jpg"]
  = (Structured [TextPart "see"; ImagePart "http://x.test/a.png";
                 ImagePart "data:image/jpeg;base64,TWFueSBoYW5kcw=="],
     [lit "Error encoding image /img: [Errno 21] Is a directory: '/img'";
      lit "Warning: Image file not found: /img/none.jpg"]).
Proof. reflexivity. Qed.

(** ** The history display *)

Lemma url_not_inline u : is_url u = true -> startswith "data:image" u = false.
Proof.
  unfold is_url. intros H. apply orb_true_iff in H.
  destruct H as [H|H]; apply startswith_prefix in H; destruct H as [r ->]; reflexivity.
Qed.

Lemma local_image_shown fs p :
  map (fun item =>
         match item with
         | TextPart t => t
         | ImagePart url =>
             if startswith "data:image" url then lit "[Local image]"
             else "[Image: " ++ url ++ "]"
         end) (local_image fs p)
  = map (fun _ => lit "[Local image]") (local_image fs p).
Proof.
  unfold local_image. destruct (os_path_exists fs p); [|reflexivity].
  destruct (open_rb_read fs p) as [e|[|b data]]; reflexivity.
Qed.

(** X3: the history display of a message composed from an input shows
    the cleaned text, then [[Image: url]] for every URL, then
    [[Local image]] for every local file that was attached, separated
    by single spaces; the content of a file is never shown. *)
Theorem display_of_composed_message (fs : FileSystem) (text : str) :
  has_marker text ->
  format_history_content
    (fst (create_message_content fs text
            (fst (extract_image_references text)) (snd (extract_image_references text))))
  = sep_join " "
      ((if truthy (strip (Re.sub_empty text)) then [strip (Re.sub_empty text)] else [])
       ++ map (fun u => "[Image: " ++ u ++ "]") (fst (extract_image_references text))
       ++ map (fun _ => lit "[Local image]")
              (flat_map (local_image fs) (snd (extract_image_references text)))).
Proof.
  intros Hm. apply has_marker_iff in Hm.
  assert (Hne : fst (extract_image_references text) <> []
                \/ snd (extract_image_references text) <> []).
  { rewrite extract_image_references_filter. cbn [fst snd].
    destruct (filter is_url (map strip (Re.findall text))) eqn:E1; [|left; discriminate].
    destruct (filter (fun r => negb (is_url r)) (map strip (Re.findall text))) eqn:E2;
      [|right; discriminate].
    exfalso. apply Hm. pose proof (filter_partition_nil _ _ E1 E2) as H.
    apply map_eq_nil in H. exact H. }
  rewrite (composed_closed_form fs text _ _ Hne). cbn [fst format_history_content].
  f_equal. rewrite !map_app. apply (f_equal2 (@List.app (list ascii))).
  - destruct (truthy (strip (Re.sub_empty text))); reflexivity.
  - apply (f_equal2 (@List.app (list ascii))).
    + rewrite map_map. apply map_ext_in. intros u Hu.
      rewrite extract_image_references_filter in Hu. cbn [fst] in Hu.
      apply filter_In in Hu. destruct Hu as [_ Hu]. rewrite (url_not_inline u Hu). reflexivity.
    + clear Hne. induction (snd (extract_image_references text)) as [|p ps IH]; [reflexivity|].
      cbn [flat_map]. rewrite !map_app, IH, local_image_shown. reflexivity.
Qed.

(** X3 on a message with a URL, a picture and a missing file. *)
Lemma display_of_composed_message_witness :
  format_history_content
    (fst (create_message_content sample_files
            "{{ /img/cat.jpg }} or {{https://x.test/a.png}} or {{/img/none.jpg}}?"
            (fst (extract_image_references
                    "{{ /img/cat.jpg }} or {{https://x.test/a.png}} or {{/img/none.jpg}}?"))
            (snd (extract_image_references
                    "{{ /img/cat.jpg }} or {{https://x.test/a.png}} or {{/img/none.jpg}}?"))))
  = sep_join " "
      ((if truthy (strip (Re.sub_empty
                     "{{ /img/cat.jpg }} or {{https://x.test/a.png}} or {{/img/none.jpg}}?"))
        then [strip (Re.sub_empty
                "{{ /img/cat.jpg }} or {{https://x.test/a.png}} or {{/img/none.jpg}}?")]
        else [])
       ++ map (fun u => "[Image: " ++ u ++ "]")
              (fst (extract_image_references
                      "{{ /img/cat.jpg }} or {{https://x.test/a.png}} or {{/img/none.jpg}}?"))
       ++ map (fun _ => lit "[Local image]")
              (flat_map (local_image sample_files)
                 (snd (extract_image_references
                         "{{ /img/cat.jpg }} or {{https://x.test/a.png}} or {{/img/none.jpg}}?")))).
Proof.
  apply (display_of_composed_message sample_files).
  apply has_marker_iff. discriminate.
Defined.

Example display_sample :
  format_history_content
    (fst (create_message_content sample_files
            "{{ /img/cat.jpg }} or {{https://x.test/a.png}} or {{/img/none.jpg}}?"
            [lit "https://x.test/a.png"] [lit "/img/cat.jpg"; lit "/img/none.jpg"]))
  = lit "or  or ? [Image: https://x.test/a.png] [Local image]".
Proof. reflexivity. Qed.

(** ** The asynchronous controller, when the call returns in time *)

(** X4: with no other call in flight, a call that returns within the
    60 seconds ends the watch: the turn and its reply are in the
    history and in the file and the reply is printed; a failure is
    printed as [AI: Error: ...] and leaves the user's turn alone in
    the history; an empty reply is stored like any other and reported
    as no response. *)
Theorem reply_within_ceiling (fs : FileSystem) (s : Session) (user_input : str)
    (latency : nat) :
  in_flight s = [] ->
  latency <= ceiling ->
  let s' := request_async_response fs s user_input latency in
  let self1 := fst (begin_response fs (chat s) user_input) in
  in_flight s' = [] /\
  is_generating (chat s') = false /\
  match client (chat s) (snd (begin_response fs (chat s) user_input)) with
  | Reply answer =>
      messages (chat s')
      = messages (chat s) ++ [user_turn fs user_input; Message assistant (PlainText answer)] /\
      history_file (chat s') = History.save_history (messages (chat s')) /\
      last_response (chat s') = Some answer /\
      stdout (chat s')
      = stdout self1 ++ [if truthy answer then "AI: " ++ answer else no_response_line]
  | Raised e =>
      messages (chat s') = messages (chat s) ++ [user_turn fs user_input] /\
      history_file (chat s') = history_file (chat s) /\
      last_response (chat s') = Some ("Error: " ++ e) /\
      stdout (chat s') = stdout self1 ++ ["AI: Error: " ++ e]
  end.
Proof.
  intros Hin Hlat. cbv zeta. unfold request_async_response.
  rewrite begin_response_flag.
  pose proof (begin_response_spec fs (chat s) user_input) as H.
  destruct (begin_response fs (chat s) user_input) as [self1 request].
  destruct H as (Hm & Hf & _ & _ & Hc & _). cbn [fst snd].
  rewrite Hin. cbn [List.app].
  rewrite animation_lands by (cbn [remaining]; auto; unfold ceiling in *; lia).
  cbn [chat in_flight outcome set_is_generating client]. rewrite Hc.
  split; [reflexivity|].
  destruct (client (chat s) request) as [answer|e].
  - unfold display. cbn. destruct (truthy answer); cbn;
      rewrite Hm, <- app_assoc; auto.
  - unfold display. cbn. rewrite Hm, Hf. auto.
Qed.

(** X4 on a session that answers in two seconds. *)
Lemma reply_within_ceiling_witness :
  let s := fresh counting in
  let s' := request_async_response no_files s "hello" 20 in
  let self1 := fst (begin_response no_files (chat s) "hello") in
  in_flight s' = [] /\
  is_generating (chat s') = false /\
  match client (chat s) (snd (begin_response no_files (chat s) "hello")) with
  | Reply answer =>
      messages (chat s')
      = messages (chat s) ++ [user_turn no_files "hello"; Message assistant (PlainText answer)] /\
      history_file (chat s') = History.save_history (messages (chat s')) /\
      last_response (chat s') = Some answer /\
      stdout (chat s')
      = stdout self1 ++ [if truthy answer then "AI: " ++ answer else no_response_line]
  | Raised e =>
      messages (chat s') = messages (chat s) ++ [user_turn no_files "hello"] /\
      history_file (chat s') = history_file (chat s) /\
      last_response (chat s') = Some ("Error: " ++ e) /\
      stdout (chat s') = stdout self1 ++ ["AI: Error: " ++ e]
  end.
Proof.
  apply (reply_within_ceiling no_files (fresh counting) "hello" 20);
    [reflexivity | unfold ceiling; lia].
Defined.

(** ** The file and the memory *)

Lemma consistent_same self self' :
  messages self' = messages self -> history_file self' = history_file self ->
  consistent self -> consistent self'.
Proof.
  intros Hm Hf (p & pr & t & H1 & H2 & H3). exists p, pr, t.
  rewrite Hm, Hf. auto.
Qed.

Lemma consistent_saved self :
  history_file self = History.save_history (messages self) -> consistent self.
Proof.
  intros H. exists (messages self), [lit "Previous chat history loaded."], [].
  rewrite H, load_save, app_nil_r. auto.
Qed.

Lemma consistent_finish self response :
  consistent self -> consistent (finish_response self response).
Proof.
  intros H. destruct response as [answer|e].
  - apply consistent_saved. reflexivity.
  - revert H. apply consistent_same; reflexivity.
Qed.

Lemma consistent_begin fs self user_input :
  consistent self -> consistent (fst (begin_response fs self user_input)).
Proof.
  intros (p & pr & t & H1 & H2 & H3).
  pose proof (begin_response_spec fs self user_input) as H.
  destruct (begin_response fs self user_input) as [self1 request].
  destruct H as (Hm & Hf & _). cbn [fst].
  exists p, pr, (t ++ [user_turn fs user_input]).
  rewrite Hf, Hm, H2, <- app_assoc. repeat split; auto.
  apply Forall_app. split; [exact H3|]. constructor; [reflexivity | constructor].
Qed.

Lemma consistent_land calls : forall self,
  consistent self -> consistent (fst (land self calls)).
Proof.
  induction calls as [|c calls IH]; intros self H; [exact H|].
  cbn [land]. destruct (remaining c) as [|[|k]].
  - apply IH, consistent_finish, H.
  - apply IH, consistent_finish, H.
  - specialize (IH self H). destruct (land self calls) as [self' rest']. exact IH.
Qed.

Lemma consistent_tick s : consistent (chat s) -> consistent (chat (tick s)).
Proof.
  intros H. unfold tick. pose proof (consistent_land (in_flight s) (chat s) H) as H'.
  destruct (land (chat s) (in_flight s)) as [self calls]. exact H'.
Qed.

Lemma consistent_idle n s : consistent (chat s) -> consistent (chat (idle n s)).
Proof.
  intros H. unfold idle. induction n as [|n IH]; [exact H|].
  cbn [Nat.iter]. apply consistent_tick, IH.
Qed.

Lemma consistent_animation time_left : forall s,
  consistent (chat s) -> consistent (chat (show_thinking_animation time_left s)).
Proof.
  induction time_left as [|n IH]; intros s H; [exact H|].
  cbn [show_thinking_animation]. destruct (is_generating (chat s)); [|exact H].
  apply IH, consistent_tick, H.
Qed.

Lemma consistent_display self : consistent self -> consistent (display self).
Proof.
  unfold display. destruct (last_response self) as [r|]; [destruct (truthy r)|];
    apply consistent_same; reflexivity.
Qed.

Lemma consistent_request fs s user_input latency :
  consistent (chat s) ->
  consistent (chat (request_async_response fs s user_input latency)).
Proof.
  intros H. unfold request_async_response.
  rewrite begin_response_flag.
  pose proof (consistent_begin fs (chat s) user_input H) as Hb.
  destruct (begin_response fs (chat s) user_input) as [self1 request]. cbn [fst snd] in *.
  cbn [chat]. apply consistent_display, consistent_animation. cbn [chat].
  revert Hb. apply consistent_same; reflexivity.
Qed.

Lemma consistent_loop fs script : forall s,
  consistent (chat s) -> consistent (chat (fst (chat_loop fs s script))).
Proof.
  induction script as [|t rest IH]; intros s H; [exact H|].
  cbn [chat_loop].
  pose proof (consistent_idle (think t) s H) as Hi.
  destruct (str_eqb (lower (strip (line t))) "quit").
  { cbn [fst say chat]. revert Hi. apply consistent_same; reflexivity. }
  destruct (str_eqb (lower (strip (line t))) "new").
  { apply IH. cbn [say chat]. apply consistent_saved. reflexivity. }
  destruct (str_eqb (lower (strip (line t))) "history").
  { apply IH. cbn [say chat]. revert Hi. apply consistent_same; reflexivity. }
  destruct (negb (truthy (strip (line t)))).
  { apply IH, Hi. }
  apply IH, consistent_request, Hi.
Qed.

(** X5: in every session, however the calls are timed and however they
    end, the history file loads at every moment, and what it loads as
    is the history in memory without the user turns at its end that
    have not been answered. *)
Theorem session_keeps_file_and_memory_together (fs : FileSystem)
    (api_key : option str) (c : Request -> Response) (file : option str)
    (s : Session) (script : list Typed) :
  init api_key c file = Started s ->
  consistent (chat (fst (start_chat fs s script))).
Proof.
  intros H. unfold start_chat. apply consistent_loop. cbn [say chat].
  unfold init in H. destruct (match api_key with Some k => truthy k | None => false end);
    [|discriminate].
  destruct (History.load_history file) as [[h printed]|] eqn:E; [|discriminate].
  inversion H; subst; clear H. cbn [chat].
  exists h, printed, []. cbn [history_file messages print]. rewrite app_nil_r. auto.
Qed.

(** X5 on a session where a call outlives its request and a [new]. *)
Lemma session_keeps_together_witness :
  consistent
    (chat (fst (start_chat no_files
                  {| chat := {| client := counting; messages := []; history_file := None;
                                is_generating := false; last_response := None;
                                stdout := [] |};
                     in_flight := [] |}
                  [{| think := 10; line := "first"; latency := 700 |};
                   {| think := 0; line := "new"; latency := 0 |};
                   {| think := 200; line := "second {{/no/file.jpg}}"; latency := 20 |};
                   {| think := 5; line := "history"; latency := 0 |}]))).
Proof.
  apply (session_keeps_file_and_memory_together no_files (Some (lit "sk-test")) counting None).
  reflexivity.
Defined.

(** In [chat_with_media_v2.py] the [new] command does not forget a call
    in flight: its reply lands in the new conversation. *)
Example new_chat_receives_old_reply :
  messages
    (chat (fst (start_chat no_files (fresh counting)
                  [{| think := 10; line := "first"; latency := 700 |};
                   {| think := 0; line := "new"; latency := 0 |};
                   {| think := 200; line := "history"; latency := 0 |}])))
  = [Message assistant (PlainText "one")].
Proof. vm_compute. reflexivity. Qed.

(** ** A history file cut short *)

Module Truncated.

Import Json JsonFacts History HistoryFacts.

Lemma scan_once_nil fuel : scan_once fuel [] = Err JSONDecodeError.
Proof. destruct fuel; reflexivity. Qed.

Lemma array_items_nil fuel acc : array_items fuel acc [] = Err JSONDecodeError.
Proof. destruct fuel as [|fuel]; [reflexivity|]. rewrite array_items_step, scan_once_nil. reflexivity. Qed.

Lemma escape_cut_short c k :
  k < List.length (escape_char c) ->
  scanstring (firstn k (escape_char c)) = Err JSONDecodeError.
Proof.
  destruct c as [[] [] [] [] [] [] [] []]; cbn [escape_char]; intros Hk;
    (do 6 (destruct k as [|k]; [reflexivity|])); cbn in Hk; lia.
Qed.

Lemma cut_short_firstn (p s : str) :
  cut_short p s -> p = firstn (List.length p) s /\ List.length p < List.length s.
Proof.
  intros (q & Hq & ->). split.
  - rewrite firstn_app, Nat.sub_diag, firstn_all. cbn. rewrite app_nil_r. reflexivity.
  - rewrite length_app. destruct q; [contradiction|]. cbn. lia.
Qed.

Lemma scanstring_cut_short s : forall p,
  cut_short p (flat_map escape_char s ++ [DQ]) ->
  scanstring p = Err JSONDecodeError.
Proof.
  induction s as [|c s IH]; intros p (q & Hq & E).
  - cbn in E. destruct p as [|a p]; [reflexivity|]. exfalso.
    inversion E as [[Ha Hp]]. destruct p; [destruct q; [contradiction|discriminate]|discriminate].
  - cbn [flat_map] in E. rewrite <- app_assoc in E. symmetry in E.
    apply app_eq_app in E. destruct E as (l & [[-> E2]|[E1 ->]]).
    + rewrite scanstring_escape. rewrite (IH l); [reflexivity|].
      exists q. split; [exact Hq | exact E2].
    + destruct l as [|x l].
      * rewrite app_nil_r in E1. subst p.
        rewrite <- (app_nil_r (escape_char c)), scanstring_escape. reflexivity.
      * assert (Hc : cut_short p (escape_char c)) by (exists (x :: l); split; [discriminate | exact E1]).
        apply cut_short_firstn in Hc. destruct Hc as [Hp Hlen]. rewrite Hp.
        apply escape_cut_short, Hlen.
Qed.

(** A beginning of an indentation is whitespace. *)
Lemma skip_ws_all (s : str) : forallb is_ws s = true -> skip_ws s = [].
Proof.
  induction s as [|c s IH]; [reflexivity|]. cbn [forallb skip_ws]. intros H.
  apply andb_true_iff in H. destruct H as [-> H]. apply IH, H.
Qed.

Lemma newline_indent_ws n : forallb is_ws (newline_indent n) = true.
Proof.
  unfold newline_indent. cbn [forallb]. change (is_ws LF) with true. cbn [andb].
  induction (2 * n) as [|k IH]; [reflexivity|]. cbn [repeat forallb]. exact IH.
Qed.

(** Cutting a text that begins with an indentation: the cut falls in
    the indentation, or after it. *)
Lemma cut_after_indent n (X p q : str) :
  newline_indent n ++ X = p ++ q ->
  skip_ws p = [] \/ exists p2, p = newline_indent n ++ p2 /\ X = p2 ++ q.
Proof.
  intros E. apply app_eq_app in E. destruct E as (l & [[E1 E2]|[E1 E2]]).
  - left. apply skip_ws_all. pose proof (newline_indent_ws n) as H.
    rewrite E1, forallb_app in H. apply andb_true_iff in H. apply H.
  - right. exists l. auto.
Qed.

Lemma ok_or_fails_ok {A} (a : A) : ok_or_fails (Ok a) a.
Proof. left. reflexivity. Qed.

Lemma ok_or_fails_err {A} (a : A) : ok_or_fails (Err JSONDecodeError) a.
Proof. right. reflexivity. Qed.

Ltac read_item Hx Hpx :=
  match goal with
  | |- context [scan_once ?f (encode ?l ?x ++ ?r)] =>
      let E := fresh "E" in
      destruct (Hx Hpx f l r) as [E|E]; rewrite E; cbn [bind];
      [|apply ok_or_fails_err]
  end.

Lemma array_items_or_fails level xs :
  forall x acc fuel rest,
    Forall reads_or_fails (x :: xs) ->
    fold_right (fun y a => plain y /\ a) True (x :: xs) ->
    ok_or_fails
      (array_items fuel acc
         (encode (S level) x
          ++ flat_map (fun y => ("," ++ newline_indent (S level)) ++ y)
                      (map (encode (S level)) xs)
          ++ newline_indent level ++ "]" ++ rest))
      (acc ++ x :: xs, rest).
Proof.
  induction xs as [|y ys IH]; intros x acc fuel rest HF Hp.
  - inversion HF as [|? ? Hx _]; subst. destruct Hp as [Hpx _].
    destruct fuel as [|fuel]; [apply ok_or_fails_err|].
    rewrite array_items_step. read_item Hx Hpx.
    cbn [map flat_map List.app]. rewrite skip_ws_indent. apply ok_or_fails_ok.
  - inversion HF as [|? ? Hx HF']; subst. destruct Hp as [Hpx Hp'].
    destruct fuel as [|fuel]; [apply ok_or_fails_err|].
    rewrite array_items_step. read_item Hx Hpx.
    cbn [map flat_map].
    rewrite <- !app_assoc. rewrite comma_not_ws_then.
    change (Ascii.eqb ","%char "]"%char) with false.
    change (Ascii.eqb ","%char ","%char) with true. cbv iota.
    rewrite skip_ws_indent.
    destruct (encode_head (S level) y (proj1 Hp')) as (c & t & E' & Hc & _).
    rewrite E'. cbn [List.app]. rewrite (skip_ws_stop c _ Hc).
    change (c :: t ++ ?z) with ((c :: t) ++ z). rewrite <- E'.
    replace (acc ++ x :: y :: ys) with ((acc ++ [x]) ++ y :: ys)
      by (rewrite <- app_assoc; reflexivity).
    apply IH; assumption.
Qed.

Lemma object_items_or_fails level xs :
  forall k x acc fuel rest,
    Forall (fun kv => reads_or_fails (snd kv)) ((k, x) :: xs) ->
    fold_right (fun kv a => plain (snd kv) /\ a) True ((k, x) :: xs) ->
    ok_or_fails
      (object_items fuel acc
         (flat_map escape_char k ++ [DQ] ++ ": " ++ encode (S level) x
          ++ flat_map (fun y => ("," ++ newline_indent (S level)) ++ y)
                      (map (fun kv => encode_string (fst kv) ++ ": "
                                      ++ encode (S level) (snd kv)) xs)
          ++ newline_indent level ++ "}" ++ rest))
      (acc ++ (k, x) :: xs, rest).
Proof.
  induction xs as [|[k' y] ys IH]; intros k x acc fuel rest HF Hp.
  - inversion HF as [|? ? Hx _]; subst. destruct Hp as [Hpx _]. cbn [snd] in *.
    destruct fuel as [|fuel]; [apply ok_or_fails_err|].
    rewrite object_items_step. cbn [List.app]. rewrite scanstring_encoded. cbn [bind].
    rewrite colon_then. change (Ascii.eqb ":"%char ":"%char) with true. cbv iota.
    rewrite skip_ws_space, skip_ws_encode by exact Hpx.
    read_item Hx Hpx. cbn [map flat_map List.app].
    rewrite skip_ws_indent. apply ok_or_fails_ok.
  - inversion HF as [|? ? Hx HF']; subst. destruct Hp as [Hpx Hp']. cbn [snd] in *.
    destruct fuel as [|fuel]; [apply ok_or_fails_err|].
    rewrite object_items_step. cbn [List.app]. rewrite scanstring_encoded. cbn [bind].
    rewrite colon_then. change (Ascii.eqb ":"%char ":"%char) with true. cbv iota.
    rewrite skip_ws_space, skip_ws_encode by exact Hpx.
    read_item Hx Hpx. cbn [map flat_map fst snd].
    rewrite <- !app_assoc. rewrite comma_not_ws_then.
    change (Ascii.eqb ","%char "}"%char) with false.
    change (Ascii.eqb ","%char ","%char) with true. cbv iota.
    rewrite skip_ws_indent. unfold encode_string at 1. cbn [List.app].
    rewrite (skip_ws_stop DQ) by reflexivity.
    rewrite Ascii.eqb_refl.
    rewrite <- !app_assoc.
    replace (acc ++ (k, x) :: (k', y) :: ys) with ((acc ++ [(k, x)]) ++ (k', y) :: ys)
      by (rewrite <- app_assoc; reflexivity).
    apply IH; assumption.
Qed.

Lemma scan_fuel v : reads_or_fails v.
Proof.
  induction v as [|b|z|s|items IH|pairs IH] using json_induction;
    intros Hp fuel level rest;
    (destruct fuel as [|fuel]; [apply ok_or_fails_err|]).
  - apply ok_or_fails_ok.
  - destruct b; apply ok_or_fails_ok.
  - destruct Hp.
  - left. apply (scan_encode (JStr s) Hp). cbn. lia.
  - destruct items as [|x xs]; [apply ok_or_fails_ok|].
    cbn [encode]. rewrite <- !app_assoc.
    change ("[" ++ ?t) with ("["%char :: t).
    rewrite scan_once_array, skip_ws_indent.
    cbn [plain] in Hp. cbn [map join]. rewrite <- !app_assoc.
    rewrite skip_ws_encode by apply Hp.
    destruct (encode_head (S level) x (proj1 Hp)) as (c & t & E & _ & Hc & _).
    rewrite E at 1. cbn [List.app]. rewrite Hc.
    destruct (array_items_or_fails level xs x [] fuel rest IH Hp) as [H|H]; rewrite H.
    + apply ok_or_fails_ok.
    + apply ok_or_fails_err.
  - destruct pairs as [|[k x] xs]; [apply ok_or_fails_ok|].
    cbn [encode]. rewrite <- !app_assoc.
    change ("{" ++ ?t) with ("{"%char :: t).
    rewrite scan_once_object, skip_ws_indent.
    cbn [plain] in Hp. destruct Hp as [Hnd Hp]. cbn [map join fst snd].
    unfold encode_string at 1. rewrite <- !app_assoc. cbn [List.app].
    rewrite (skip_ws_stop DQ) by reflexivity.
    change (Ascii.eqb DQ "}"%char) with false. rewrite Ascii.eqb_refl. cbv iota.
    pose proof (object_items_or_fails level xs k x [] fuel rest IH Hp) as H.
    rewrite <- !app_assoc. destruct H as [H|H]; rewrite H.
    + cbn [bind]. rewrite dict_of_pairs_distinct by exact Hnd. apply ok_or_fails_ok.
    + apply ok_or_fails_err.
Qed.


(** *** Cutting an encoded document *)

Lemma cut_short_cons p c (s : str) :
  cut_short p (c :: s) -> p = [] \/ exists p', p = c :: p' /\ cut_short p' s.
Proof.
  intros (q & Hq & E). destruct p as [|a p']; [left; reflexivity|].
  right. inversion E; subst. exists p'. split; [reflexivity|]. exists q. auto.
Qed.

Lemma cut_cons_eq (c : ascii) (t l q : str) :
  c :: t = l ++ q -> l = [] \/ exists l1, l = c :: l1 /\ t = l1 ++ q.
Proof.
  intros E. destruct l as [|a l1]; [left; reflexivity|].
  right. injection E as -> E. exists l1. auto.
Qed.

Lemma cut_one (c : ascii) (l q : str) : [c] = l ++ q -> q <> [] -> l = [].
Proof.
  intros E Hq. destruct l as [|a l]; [reflexivity|].
  exfalso. inversion E as [[Ha Hl]]. destruct l; [destruct q; [contradiction|] |]; discriminate.
Qed.

(** A cut in front of an encoded item: what is left of the item begins
    as the item does. *)
Lemma skip_ws_cut level v (Z l q : str) :
  plain v -> encode level v ++ Z = l ++ q -> skip_ws l = l.
Proof.
  intros Hp E. destruct l as [|a l]; [reflexivity|].
  destruct (encode_head level v Hp) as (c & t & Ev & Hc & _).
  rewrite Ev in E. inversion E; subst. apply skip_ws_stop, Hc.
Qed.

Lemma literal_cut (w : str) fuel :
  (forall k, k < List.length w -> scan_once (S fuel) (firstn k w) = Err JSONDecodeError) ->
  forall p, cut_short p w -> scan_once (S fuel) p = Err JSONDecodeError.
Proof.
  intros H p Hc. apply cut_short_firstn in Hc. destruct Hc as [Hp Hlen].
  rewrite Hp. apply H, Hlen.
Qed.

Ltac by_literal :=
  apply literal_cut; intros k Hk; cbn in Hk;
  (do 6 (destruct k as [|k]; [try reflexivity; lia|])); lia.

(** After the last item of a container. *)
Lemma closing_cut level (closer : ascii) (l q : str) :
  newline_indent level ++ [closer] = l ++ q -> q <> [] -> skip_ws l = [].
Proof.
  intros E Hq. apply cut_after_indent in E. destruct E as [E|(l2 & -> & E)]; [exact E|].
  apply cut_one in E; [|exact Hq]. subst l2. rewrite skip_ws_indent. reflexivity.
Qed.

Lemma array_items_cut level xs :
  forall x acc fuel p,
    Forall fails_when_cut (x :: xs) ->
    fold_right (fun y a => plain y /\ a) True (x :: xs) ->
    cut_short p
      (encode (S level) x
       ++ flat_map (fun y => ("," ++ newline_indent (S level)) ++ y)
                   (map (encode (S level)) xs)
       ++ newline_indent level ++ "]") ->
    array_items fuel acc p = Err JSONDecodeError.
Proof.
  induction xs as [|y ys IH]; intros x acc fuel p HF Hp (q & Hq & E);
    (destruct fuel as [|fuel]; [reflexivity|]);
    inversion HF as [|? ? Hx HF']; subst; destruct Hp as [Hpx Hp'];
    rewrite array_items_step; apply app_eq_app in E; destruct E as (l & [[E _]|[-> E]]).
  - destruct l as [|a l].
    + rewrite app_nil_r in E. subst p.
      destruct (scan_fuel x Hpx fuel (S level) []) as [H|H];
        rewrite app_nil_r in H; rewrite H; reflexivity.
    + rewrite (Hx Hpx fuel (S level) p); [reflexivity|].
      exists (a :: l). split; [discriminate | exact E].
  - destruct (scan_fuel x Hpx fuel (S level) l) as [H|H]; rewrite H; [|reflexivity].
    cbn [bind]. cbn [map flat_map List.app] in E.
    rewrite (closing_cut level "]"%char l q E Hq). reflexivity.
  - destruct l as [|a l].
    + rewrite app_nil_r in E. subst p.
      destruct (scan_fuel x Hpx fuel (S level) []) as [H|H];
        rewrite app_nil_r in H; rewrite H; reflexivity.
    + rewrite (Hx Hpx fuel (S level) p); [reflexivity|].
      exists (a :: l). split; [discriminate | exact E].
  - destruct (scan_fuel x Hpx fuel (S level) l) as [H|H]; rewrite H; [|reflexivity].
    cbn [bind]. cbn [map flat_map] in E. rewrite <- !app_assoc in E.
    change ("," ++ ?t) with (","%char :: t) in E.
    apply cut_cons_eq in E. destruct E as [->|(l1 & -> & E1)]; [reflexivity|].
    rewrite (skip_ws_stop ","%char) by reflexivity.
    change (Ascii.eqb ","%char "]"%char) with false.
    change (Ascii.eqb ","%char ","%char) with true. cbv iota.
    apply cut_after_indent in E1. destruct E1 as [E1|(l2 & -> & E1)].
    + rewrite E1. apply array_items_nil.
    + rewrite skip_ws_indent, (skip_ws_cut (S level) y _ l2 q (proj1 Hp') E1).
      apply (IH y); [exact HF' | exact Hp' |]. exists q. split; [exact Hq | exact E1].
Qed.

Lemma object_items_cut level xs :
  forall k x acc fuel p,
    Forall (fun kv => fails_when_cut (snd kv)) ((k, x) :: xs) ->
    fold_right (fun kv a => plain (snd kv) /\ a) True ((k, x) :: xs) ->
    cut_short p
      (flat_map escape_char k ++ [DQ] ++ ": " ++ encode (S level) x
       ++ flat_map (fun y => ("," ++ newline_indent (S level)) ++ y)
                   (map (fun kv => encode_string (fst kv) ++ ": "
                                   ++ encode (S level) (snd kv)) xs)
       ++ newline_indent level ++ "}") ->
    object_items fuel acc p = Err JSONDecodeError.
Proof.
  induction xs as [|[k' y] ys IH]; intros k x acc fuel p HF Hp (q & Hq & E);
    (destruct fuel as [|fuel]; [reflexivity|]);
    inversion HF as [|? ? Hx HF']; subst; destruct Hp as [Hpx Hp']; cbn [snd] in Hx, Hpx;
    rewrite object_items_step; rewrite app_assoc in E;
    apply app_eq_app in E; destruct E as (l & [[E _]|[-> E]]).
  1, 3: destruct l as [|a l];
    [ rewrite app_nil_r in E; subst p; rewrite scanstring_encoded; reflexivity
    | rewrite (scanstring_cut_short k p); [reflexivity|];
      exists (a :: l); split; [discriminate | exact E] ].
  all: rewrite <- app_assoc; cbn [List.app]; rewrite scanstring_encoded; cbn [bind];
    change (": " ++ ?t) with (":"%char :: " "%char :: t) in E;
    apply cut_cons_eq in E; destruct E as [->|(l1 & -> & E)]; [reflexivity|];
    rewrite (skip_ws_stop ":"%char) by reflexivity;
    change (Ascii.eqb ":"%char ":"%char) with true; cbv iota;
    apply cut_cons_eq in E; destruct E as [->|(l2 & -> & E)];
    [cbn [skip_ws]; rewrite scan_once_nil; reflexivity|];
    rewrite skip_ws_space, (skip_ws_cut (S level) x _ l2 q Hpx E);
    apply app_eq_app in E; destruct E as (l3 & [[E _]|[-> E]]).
  1, 3: destruct l3 as [|a l3];
    [ rewrite app_nil_r in E; subst l2;
      destruct (scan_fuel x Hpx fuel (S level) []) as [H|H];
        rewrite app_nil_r in H; rewrite H; reflexivity
    | rewrite (Hx Hpx fuel (S level) l2); [reflexivity|];
      exists (a :: l3); split; [discriminate | exact E] ].
  - destruct (scan_fuel x Hpx fuel (S level) l3) as [H|H]; rewrite H; [|reflexivity].
    cbn [bind]. cbn [map flat_map List.app] in E.
    rewrite (closing_cut level "}"%char l3 q E Hq). reflexivity.
  - destruct (scan_fuel x Hpx fuel (S level) l3) as [H|H]; rewrite H; [|reflexivity].
    cbn [bind]. cbn [map flat_map fst snd] in E. rewrite <- !app_assoc in E.
    change ("," ++ ?t) with (","%char :: t) in E.
    apply cut_cons_eq in E. destruct E as [->|(l4 & -> & E)]; [reflexivity|].
    rewrite (skip_ws_stop ","%char) by reflexivity.
    change (Ascii.eqb ","%char "}"%char) with false.
    change (Ascii.eqb ","%char ","%char) with true. cbv iota.
    apply cut_after_indent in E. destruct E as [E|(l5 & -> & E)]; [rewrite E; reflexivity|].
    rewrite skip_ws_indent. unfold encode_string in E at 1. cbn [List.app] in E.
    apply cut_cons_eq in E. destruct E as [->|(l6 & -> & E)]; [reflexivity|].
    rewrite (skip_ws_stop DQ) by reflexivity. rewrite Ascii.eqb_refl.
    apply (IH k' y); [exact HF' | exact Hp' |].
    exists q. split; [exact Hq|]. rewrite <- E, <- !app_assoc. reflexivity.
Qed.

(** The scanner rejects every proper beginning of an encoded document. *)
Lemma scan_cut v : fails_when_cut v.
Proof.
  induction v as [|b|z|s|items IH|pairs IH] using json_induction;
    intros Hp fuel level p Hc;
    (destruct fuel as [|fuel]; [reflexivity|]).
  - revert p Hc. cbn [encode]. by_literal.
  - revert p Hc. destruct b; cbn [encode]; by_literal.
  - destruct Hp.
  - cbn [encode] in Hc. unfold encode_string in Hc.
    apply cut_short_cons in Hc. destruct Hc as [->|(p' & -> & Hc)]; [reflexivity|].
    cbn [scan_once]. rewrite Ascii.eqb_refl.
    rewrite (scanstring_cut_short s p' Hc). reflexivity.
  - destruct items as [|x xs]; [revert p Hc; cbn [encode]; by_literal|].
    destruct Hc as (q & Hq & E). cbn [encode map join] in E. rewrite <- !app_assoc in E.
    change ("[" ++ ?t) with ("["%char :: t) in E.
    apply cut_cons_eq in E. destruct E as [->|(p1 & -> & E)]; [reflexivity|].
    rewrite scan_once_array.
    apply cut_after_indent in E. destruct E as [E|(p2 & -> & E)]; [rewrite E; reflexivity|].
    rewrite skip_ws_indent. cbn [plain] in Hp.
    rewrite (skip_ws_cut (S level) x _ p2 q (proj1 Hp) E).
    destruct p2 as [|c t]; [reflexivity|].
    assert (Hc : Ascii.eqb c "]"%char = false).
    { destruct (encode_head (S level) x (proj1 Hp)) as (c' & t' & Ev & _ & Hc & _).
      rewrite Ev in E. injection E as -> _. exact Hc. }
    rewrite Hc.
    rewrite (array_items_cut level xs x [] fuel (c :: t) IH Hp); [reflexivity|].
    exists q. split; [exact Hq | exact E].
  - destruct pairs as [|[k x] xs]; [revert p Hc; cbn [encode]; by_literal|].
    destruct Hc as (q & Hq & E). cbn [encode map join fst snd] in E.
    rewrite <- !app_assoc in E.
    change ("{" ++ ?t) with ("{"%char :: t) in E.
    apply cut_cons_eq in E. destruct E as [->|(p1 & -> & E)]; [reflexivity|].
    rewrite scan_once_object.
    apply cut_after_indent in E. destruct E as [E|(p2 & -> & E)]; [rewrite E; reflexivity|].
    rewrite skip_ws_indent. cbn [plain] in Hp. destruct Hp as [_ Hp].
    unfold encode_string in E at 1. cbn [List.app] in E.
    apply cut_cons_eq in E. destruct E as [->|(p3 & -> & E)]; [reflexivity|].
    rewrite (skip_ws_stop DQ) by reflexivity.
    change (Ascii.eqb DQ "}"%char) with false. rewrite Ascii.eqb_refl. cbv iota.
    rewrite (object_items_cut level xs k x [] fuel p3 IH Hp); [reflexivity|].
    exists q. split; [exact Hq|]. rewrite <- E, <- !app_assoc. reflexivity.
Qed.

End Truncated.

(** X6: a history file that was cut short, at any place, does not
    load: the session starts with an empty history and says so. *)
Theorem truncated_history_is_discarded (h : list message) (p : str) :
  cut_short p (Json.dumps (History.history_to_json h)) ->
  History.load_history (Some p)
  = Some ([], [lit "Error loading chat history. Starting fresh."]).
Proof.
  intros Hc. unfold History.load_history, Json.loads.
  pose proof (history_plain h) as Hp.
  assert (Hs : Json.skip_ws p = p).
  { destruct Hc as (q & _ & E). unfold Json.dumps in E.
    rewrite <- (app_nil_r (Json.encode 0 _)) in E.
    apply (Truncated.skip_ws_cut 0 _ [] p q Hp E). }
  rewrite Hs, (Truncated.scan_cut _ Hp _ 0 p Hc). reflexivity.
Qed.

(** X6 on the file of a one-turn history, cut after 30 characters. *)
Lemma truncated_history_witness :
  History.load_history
    (Some (firstn 30 (Json.dumps (History.history_to_json
                                    [Message user (PlainText "hello")]))))
  = Some ([], [lit "Error loading chat history. Starting fresh."]).
Proof.
  apply (truncated_history_is_discarded [Message user (PlainText "hello")]).
  exists (skipn 30 (Json.dumps (History.history_to_json [Message user (PlainText "hello")]))).
  split; [discriminate | symmetry; apply firstn_skipn].
Defined.

(** ** The command loop of [chat_with_media.py] *)

Module MediaLoop.

Import ChatWithMedia.

Lemma loop_state_new self cmd post :
  str_eqb (lower (strip cmd)) "quit" = false ->
  str_eqb (lower (strip cmd)) "new" = true ->
  fst (fst (chat_loop self (cmd :: post))) = fst (fst (chat_loop (new_chat self) post)) /\
  snd (chat_loop self (cmd :: post)) = snd (chat_loop (new_chat self) post).
Proof.
  intros Hq Hn. cbn [chat_loop]. rewrite Hq, Hn.
  destruct (chat_loop (new_chat self) post) as [[s' out] e]. auto.
Qed.

Lemma get_ai_response_client self user_input :
  client (fst (get_ai_response self user_input)) = client self.
Proof.
  unfold get_ai_response.
  destruct (client self (request_of self user_input)); reflexivity.
Qed.

Lemma loop_state_step self l rest :
  str_eqb (lower (strip l)) "quit" = false ->
  fst (fst (chat_loop self (l :: rest))) = fst (fst (chat_loop (media_after_line self l) rest)) /\
  snd (chat_loop self (l :: rest)) = snd (chat_loop (media_after_line self l) rest).
Proof.
  intros Hq. cbn [chat_loop]. unfold media_after_line. rewrite Hq.
  destruct (str_eqb (lower (strip l)) "new").
  { destruct (chat_loop (new_chat self) rest) as [[s' out] e]. auto. }
  destruct (str_eqb (lower (strip l)) "history").
  { destruct (chat_loop self rest) as [[s' out] e]. auto. }
  destruct (negb (truthy (strip l))); [auto|].
  destruct (get_ai_response self (strip l)) as [self1 answer]. cbn [fst].
  destruct (chat_loop self1 rest) as [[s' out] e]. auto.
Qed.

Lemma after_line_client self l : client (media_after_line self l) = client self.
Proof.
  unfold media_after_line.
  destruct (str_eqb (lower (strip l)) "new"); [reflexivity|].
  destruct (str_eqb (lower (strip l)) "history"); [reflexivity|].
  destruct (negb (truthy (strip l))); [reflexivity|].
  apply get_ai_response_client.
Qed.

Lemma new_chat_client self self' : client self = client self' -> new_chat self = new_chat self'.
Proof. unfold new_chat. intros ->. reflexivity. Qed.

End MediaLoop.

(** X7: in [chat_with_media.py] the [new] command forgets everything:
    the history, the file and the way the session ends after it are
    those of a session that starts with [new], whatever was typed and
    answered before. *)
Theorem new_forgets_what_came_before (self self' : ChatWithMedia.ChatApp)
    (pre post : list str) (cmd : str) :
  ChatWithMedia.client self = ChatWithMedia.client self' ->
  Forall (fun l => str_eqb (lower (strip l)) "quit" = false) pre ->
  lower (strip cmd) = lit "new" ->
  fst (fst (ChatWithMedia.chat_loop self (pre ++ cmd :: post)))
  = fst (fst (ChatWithMedia.chat_loop self' (cmd :: post))) /\
  snd (ChatWithMedia.chat_loop self (pre ++ cmd :: post))
  = snd (ChatWithMedia.chat_loop self' (cmd :: post)).
Proof.
  intros Hc Hpre Hcmd. revert self Hc.
  induction Hpre as [|l pre Hl Hpre IH]; intros self Hc.
  - cbn [List.app].
    assert (Hq : str_eqb (lower (strip cmd)) "quit" = false) by (rewrite Hcmd; reflexivity).
    assert (Hn : str_eqb (lower (strip cmd)) "new" = true) by (rewrite Hcmd; reflexivity).
    destruct (MediaLoop.loop_state_new self cmd post Hq Hn) as [-> ->].
    destruct (MediaLoop.loop_state_new self' cmd post Hq Hn) as [-> ->].
    rewrite (MediaLoop.new_chat_client self self' Hc). auto.
  - cbn [List.app].
    destruct (MediaLoop.loop_state_step self l (pre ++ cmd :: post) Hl) as [-> ->].
    apply IH. rewrite MediaLoop.after_line_client. exact Hc.
Qed.

(** X7 on a session with an answered turn, a listing and a blank line
    before the [new]. *)
Lemma new_forgets_witness :
  let self := {| ChatWithMedia.client := counting; ChatWithMedia.messages := [];
                 ChatWithMedia.history_file := None |} in
  let self' := {| ChatWithMedia.client := counting;
                  ChatWithMedia.messages := [Message user (PlainText "old")];
                  ChatWithMedia.history_file := Some (lit "not json") |} in
  fst (fst (ChatWithMedia.chat_loop self
              ([lit "look {{http://x.test/a.png}}"; lit "history"; lit "  "]
               ++ lit " NeW " :: [lit "hello"; lit "Quit"; lit "ignored"])))
  = fst (fst (ChatWithMedia.chat_loop self'
                (lit " NeW " :: [lit "hello"; lit "Quit"; lit "ignored"]))) /\
  snd (ChatWithMedia.chat_loop self
         ([lit "look {{http://x.test/a.png}}"; lit "history"; lit "  "]
          ++ lit " NeW " :: [lit "hello"; lit "Quit"; lit "ignored"]))
  = snd (ChatWithMedia.chat_loop self'
           (lit " NeW " :: [lit "hello"; lit "Quit"; lit "ignored"])).
Proof.
  cbv zeta. apply new_forgets_what_came_before.
  - reflexivity.
  - repeat constructor.
  - reflexivity.
Defined.

Lemma consistent_media_saved self :
  ChatWithMedia.history_file self = History.save_history (ChatWithMedia.messages self) ->
  consistent_media self.
Proof.
  intros H. exists (ChatWithMedia.messages self), [lit "Previous chat history loaded."], [].
  rewrite H, load_save, app_nil_r. auto.
Qed.

Lemma consistent_media_response self user_input :
  consistent_media self ->
  consistent_media (fst (ChatWithMedia.get_ai_response self user_input)).
Proof.
  intros (p & pr & t & H1 & H2 & H3). unfold ChatWithMedia.get_ai_response.
  destruct (ChatWithMedia.client self (ChatWithMedia.request_of self user_input)) as [r|e];
    cbn [fst].
  - apply consistent_media_saved. reflexivity.
  - exists p, pr,
      (t ++ [Message user (ChatWithMedia.create_message_content user_input
                             (ChatWithMedia.extract_image_urls user_input))]).
    cbn [ChatWithMedia.history_file ChatWithMedia.messages ChatWithMedia.request_of req_messages].
    rewrite H2, <- app_assoc. repeat split; auto.
    apply Forall_app. split; [exact H3|]. constructor; [reflexivity | constructor].
Qed.

(** X8: in [chat_with_media.py] too, after any lines typed and any
    answers or failures of the service, the file loads, and what it
    loads as is the history in memory without the unanswered user turns
    at its end. *)
Theorem media_keeps_file_and_memory_together (self : ChatWithMedia.ChatApp)
    (lines : list str) :
  consistent_media self ->
  consistent_media (fst (fst (ChatWithMedia.start_chat self lines))).
Proof.
  intros H. unfold ChatWithMedia.start_chat.
  assert (G : consistent_media (fst (fst (ChatWithMedia.chat_loop self lines)))).
  { revert self H. induction lines as [|l rest IH]; intros self H; [exact H|].
    destruct (str_eqb (lower (strip l)) "quit") eqn:Hq.
    - cbn [ChatWithMedia.chat_loop]. rewrite Hq. exact H.
    - destruct (MediaLoop.loop_state_step self l rest Hq) as [-> _].
      apply IH. unfold media_after_line.
      destruct (str_eqb (lower (strip l)) "new");
        [apply consistent_media_saved; reflexivity|].
      destruct (str_eqb (lower (strip l)) "history"); [exact H|].
      destruct (negb (truthy (strip l))); [exact H|].
      apply consistent_media_response, H. }
  destruct (ChatWithMedia.chat_loop self lines) as [[s' out] e]. exact G.
Qed.

(** X8 on a session whose service is out of reach. *)
Lemma media_keeps_together_witness :
  consistent_media
    (fst (fst (ChatWithMedia.start_chat
                 {| ChatWithMedia.client := unreachable; ChatWithMedia.messages := [];
                    ChatWithMedia.history_file := None |}
                 [lit "hello"; lit "anyone {{http://x.test/a.png}}?"; lit "history"]))).
Proof.
  apply media_keeps_file_and_memory_together.
  exists [], [], []. split; [reflexivity | split; [reflexivity | constructor]].
Defined.
